(** * PythonPracticeBook: lazy sequences and call binding

    A shallow embedding of the generator / iterator snippets under
    [src/comprehension] and of the argument-binding snippets under
    [src/functions], with the properties the specification states about
    them. *)

From Stdlib Require Import ZArith Lia Bool Ascii String.
From Stdlib Require Import Floats.SpecFloat.
From Stdlib Require Import Sorting.Sorted.
From stdpp Require Import gmap strings list fin_maps.

(** ** Exceptions and outcomes *)

(** The built-in exceptions the snippets raise or catch. *)
Inductive exn :=
| ValueError
| TypeError
| ZeroDivisionError
| OverflowError.

(** What a call evaluates to: a returned value or a raised exception. *)
Inductive outcome (A : Type) :=
| Return (a : A)
| Raise (e : exn).
Arguments Return {A} a.
Arguments Raise {A} e.

(** What [next(it)] gives: the next item, the exhaustion marker (Python's
    [StopIteration]), or an exception raised while computing the item. *)
Inductive signal (V : Type) :=
| Yield (v : V)
| StopIteration
| Error (e : exn).
Arguments Yield {V} v.
Arguments StopIteration {V}.
Arguments Error {V} e.

(** [list(it)] for any iterator state [St] with its [next] function [step],
    with a bound on the number of items; [None] when the bound is hit. An
    exception raised by [step] propagates and the partial list is lost. *)
Fixpoint drain {St V : Type} (step : St → signal V * St) (fuel : nat) (s : St)
    : option (outcome (list V) * St) :=
  match fuel with
  | O => None
  | S k =>
    match step s with
    | (Yield x, s') =>
      match drain step k s' with
      | Some (Return l, s'') => Some (Return (x :: l), s'')
      | r => r
      end
    | (StopIteration, s') => Some (Return [], s')
    | (Error e, s') => Some (Raise e, s')
    end
  end.

(** ** Iterators *)

Module Iter.

Section iterators.
Context {V : Type}.

(** The single-pass iterators of the snippets.
    - [ListIter seq index]: [iter(seq)], also the line iterator of a file;
    - [MapObj f it]: [map(f, it)];
    - [FilterObj p it]: [filter(p, it)];
    - [Generator finished f p it]: the generator
      [(f(x) for x in it if p(x))], equally the generator function
      [for x in it: if p(x): yield f(x)]. [finished] is set once its frame
      has returned or raised. *)
Inductive iterator :=
| ListIter (seq : list V) (index : nat)
| MapObj (f : V → outcome V) (it : iterator)
| FilterObj (p : V → bool) (it : iterator)
| Generator (finished : bool) (f : V → outcome V) (p : V → bool) (it : iterator).

(** One call of [next(it)] with a bound on the number of nested and looping
    steps; [None] when the bound is hit. *)
Fixpoint next (fuel : nat) (it : iterator) : option (signal V * iterator) :=
  match fuel with
  | O => None
  | S k =>
    match it with
    | ListIter seq index =>
      match seq !! index with
      | Some x => Some (Yield x, ListIter seq (S index))
      | None => Some (StopIteration, ListIter seq index)
      end
    | MapObj f up =>
      match next k up with
      | None => None
      | Some (Yield x, up') =>
        match f x with
        | Return y => Some (Yield y, MapObj f up')
        | Raise e => Some (Error e, MapObj f up')
        end
      | Some (StopIteration, up') => Some (StopIteration, MapObj f up')
      | Some (Error e, up') => Some (Error e, MapObj f up')
      end
    | FilterObj p up =>
      match next k up with
      | None => None
      | Some (Yield x, up') =>
        if p x then Some (Yield x, FilterObj p up')
        else next k (FilterObj p up')
      | Some (StopIteration, up') => Some (StopIteration, FilterObj p up')
      | Some (Error e, up') => Some (Error e, FilterObj p up')
      end
    | Generator true f p up => Some (StopIteration, Generator true f p up)
    | Generator false f p up =>
      match next k up with
      | None => None
      | Some (Yield x, up') =>
        if p x then
          match f x with
          | Return y => Some (Yield y, Generator false f p up')
          | Raise e => Some (Error e, Generator true f p up')
          end
        else next k (Generator false f p up')
      | Some (StopIteration, up') => Some (StopIteration, Generator true f p up')
      | Some (Error e, up') => Some (Error e, Generator true f p up')
      end
    end
  end.

(** Items the underlying sequence still holds beyond the cursor. *)
Fixpoint remaining (it : iterator) : nat :=
  match it with
  | ListIter seq index => length seq - index
  | MapObj _ up | FilterObj _ up | Generator _ _ _ up => remaining up
  end.

(** Number of layers wrapped around the underlying sequence. *)
Fixpoint depth (it : iterator) : nat :=
  match it with
  | ListIter _ _ => O
  | MapObj _ up | FilterObj _ up | Generator _ _ _ up => S (depth up)
  end.

(** Position of the cursor in the underlying sequence. *)
Fixpoint cursor (it : iterator) : nat :=
  match it with
  | ListIter _ index => index
  | MapObj _ up | FilterObj _ up | Generator _ _ _ up => cursor up
  end.

(** The pipeline as it was built: cursor at the start, no frame finished. *)
Fixpoint skeleton (it : iterator) : iterator :=
  match it with
  | ListIter seq _ => ListIter seq O
  | MapObj f up => MapObj f (skeleton up)
  | FilterObj p up => FilterObj p (skeleton up)
  | Generator _ f p up => Generator false f p (skeleton up)
  end.

Definition budget (it : iterator) : nat := S (depth it + remaining it).

(** [next(it)]: the bound [budget it] is always enough ([next_budget]). *)
Definition produceNext (it : iterator) : signal V * iterator :=
  match next (budget it) it with
  | Some r => r
  | None => (StopIteration, it)
  end.

(** [n] successive calls of [next]: the signals in order and the final state. *)
Fixpoint pull (n : nat) (it : iterator) : list (signal V) * iterator :=
  match n with
  | O => ([], it)
  | S k =>
    let '(s, it') := produceNext it in
    let '(ss, it'') := pull k it' in
    (s :: ss, it'')
  end.

(** [list(it)]: drives [it] until it is exhausted or raises; the bound
    [S (remaining it)] is always enough ([drain_remaining]). *)
Definition list_ (it : iterator) : outcome (list V) * iterator :=
  match drain produceNext (S (remaining it)) it with
  | Some r => r
  | None => (Return [], it)
  end.

(** The spec's [create(source, transform?, predicate?)] over a finite
    sequence or over another lazy sequence. *)
Definition create (source : iterator) (transform : option (V → outcome V))
    (predicate : option (V → bool)) : iterator :=
  Generator false (default Return transform) (default (λ _, true) predicate) source.

End iterators.
Arguments iterator V : clear implicits.

End Iter.

(** ** [src/comprehension/comprehensionInsteadMapAndFilter.py] *)

Module MapFilter.
Import Iter.
Local Open Scope Z_scope.

Definition a : list Z := [1; 2; 3; 4; 5; 6; 7; 8; 9; 10].

Definition square (x : Z) : outcome Z := Return (x ^ 2).
Definition even (x : Z) : bool := x `mod` 2 =? 0.

(** [squares = []; for x in a: squares.append(x**2)] *)
Definition squares : list Z := fold_left (λ squares x, squares ++ [x ^ 2]) a [].

(** [[x**2 for x in a if x % 2 == 0]] *)
Definition even_squares : list Z :=
  fold_left (λ result x, if x `mod` 2 =? 0 then result ++ [x ^ 2] else result) a [].

(** [map(lambda x: x**2, filter(lambda x: x % 2 == 0, a))] *)
Definition alt : iterator Z := MapObj square (FilterObj even (ListIter a O)).

(** The same chain as two lazy sequences: [A] keeps the even items of the
    input, [B] squares what [A] produces. *)
Definition A : iterator Z := create (ListIter a O) None (Some even).
Definition B : iterator Z := create A (Some square) None.

(** The upstream sequence a lazy sequence wraps. *)
Definition source (it : iterator Z) : iterator Z :=
  match it with
  | MapObj _ up | FilterObj _ up | Generator _ _ _ up => up
  | ListIter _ _ => it
  end.

(** How many items of the input [a] have been consumed once [B] has been
    asked [k] times for its next output. *)
Definition consumed_after (k : nat) : nat := cursor (snd (pull k B)).

End MapFilter.

(** ** [src/comprehension/multipleGeneratorWithYield.py] *)

Module YieldFrom.
Import Iter.
Local Open Scope Z_scope.

(** [range(n)] *)
Definition range (n : Z) : list Z := Z.of_nat <$> seq 0 (Z.to_nat n).

(** [for i in range(n): yield i]; the snippet has [n = 1_000_000]. *)
Definition child_of (n : Z) : iterator Z :=
  Generator false Return (λ _, true) (ListIter (range n) O).

(** [for i in child(): yield i] *)
Definition slow_of (n : Z) : iterator Z :=
  Generator false Return (λ _, true) (child_of n).

(** [yield from child()] *)
Definition fast_of (n : Z) : iterator Z :=
  Generator false Return (λ _, true) (child_of n).

Definition child : iterator Z := child_of 1000000.
Definition slow : iterator Z := slow_of 1000000.
Definition fast : iterator Z := fast_of 1000000.

End YieldFrom.

(** ** [src/comprehension/generatorInsteadOfList.py] *)

Module IndexWords.
Local Open Scope Z_scope.

(** [enumerate(text)], counting from [index]. *)
Fixpoint enumerate_from (index : Z) (text : string) : list (Z * ascii) :=
  match text with
  | EmptyString => []
  | String letter rest => (index, letter) :: enumerate_from (index + 1) rest
  end.

Definition enumerate (text : string) : list (Z * ascii) := enumerate_from 0 text.

(** [if text:] *)
Definition truthy (text : string) : bool :=
  match text with
  | EmptyString => false
  | String _ _ => true
  end.

Definition index_words (text : string) : list Z :=
  let result := [] in
  let result := if truthy text then result ++ [0] else result in
  let result :=
    fold_left
      (λ result '(index, letter),
         if Ascii.eqb letter " " then result ++ [index + 1] else result)
      (enumerate text) result in
  result.

(** The frame of the generator [index_words_iter(text)] between two calls
    of [next]: not started; suspended at a [yield], with the part of
    [enumerate(text)] still to visit; or returned. *)
Inductive frame :=
| Created (text : string)
| Suspended (index : Z) (rest : string)
| Finished.

(** Runs the [for] loop up to its next [yield]. *)
Fixpoint resume_loop (index : Z) (rest : string) : signal Z * frame :=
  match rest with
  | EmptyString => (StopIteration, Finished)
  | String letter rest' =>
    if Ascii.eqb letter " " then (Yield (index + 1), Suspended (index + 1) rest')
    else resume_loop (index + 1) rest'
  end.

(** [next(it)] for [it = index_words_iter(text)]. *)
Definition next (it : frame) : signal Z * frame :=
  match it with
  | Created text =>
    if truthy text then (Yield 0, Suspended 0 text) else resume_loop 0 text
  | Suspended index rest => resume_loop index rest
  | Finished => (StopIteration, Finished)
  end.

Definition index_words_iter (text : string) : frame := Created text.

(** Letters the generator has not visited yet. *)
Definition unread (it : frame) : nat :=
  match it with
  | Created text => S (String.length text)
  | Suspended _ rest => String.length rest
  | Finished => O
  end.

(** [list(it)]; the bound is always enough ([list_total]). *)
Definition list_ (it : frame) : outcome (list Z) * frame :=
  match drain next (S (unread it)) it with
  | Some r => r
  | None => (Return [], it)
  end.

End IndexWords.

(** ** Python values *)

(** Heap locations of mutable objects. *)
Abbreviation loc := nat (only parsing).

(** The objects the snippets pass around. A [VRef] is a reference to a
    dictionary living in the store; two references are the same object
    ([is]) when their locations are equal. *)
Inductive value :=
| VNone
| VBool (b : bool)
| VInt (z : Z)
| VFloat (f : spec_float)
| VStr (s : string)
| VPair (a b : value)
| VRef (l : loc).

#[global] Instance value_inhabited : Inhabited value := populate VNone.

(** ** Numbers and true division *)

Module Number.
Local Open Scope Z_scope.

(** [int] is unbounded, [float] is an IEEE 754 binary64. *)
Inductive number :=
| PyInt (z : Z)
| PyFloat (f : spec_float).

Definition prec : Z := 53.
Definition emax : Z := 1024.

(** The integer [z] as an exact, unrounded binary value. *)
Definition exact (z : Z) : spec_float :=
  match z with
  | Z0 => S754_zero false
  | Zpos m => S754_finite false m 0
  | Zneg m => S754_finite true m 0
  end.

(** [float(z)]: round to nearest even, [OverflowError] beyond the range. *)
Definition float_of_int (z : Z) : outcome spec_float :=
  match binary_normalize prec emax z 0 false with
  | S754_infinity _ => Raise OverflowError
  | f => Return f
  end.

Definition to_float (x : number) : outcome spec_float :=
  match x with
  | PyInt z => float_of_int z
  | PyFloat f => Return f
  end.

Definition float_is_zero (f : spec_float) : bool :=
  match f with
  | S754_zero _ => true
  | _ => false
  end.

(** [b == 0]: the integer zero, or the float [0.0] or [-0.0]. *)
Definition is_zero (b : number) : bool :=
  match b with
  | PyInt z => z =? 0
  | PyFloat f => float_is_zero f
  end.

(** [a / b]. Two ints: a zero divisor raises [ZeroDivisionError]; otherwise
    the result is the correctly rounded quotient, or [OverflowError] when it
    exceeds the float range. With a float operand: both operands are
    converted to float first (an int that is too large raises
    [OverflowError]), then a zero divisor raises [ZeroDivisionError], and
    otherwise the result is the IEEE quotient. *)
Definition truediv (a b : number) : outcome spec_float :=
  match a, b with
  | PyInt x, PyInt y =>
    if y =? 0 then Raise ZeroDivisionError
    else
      match SFdiv prec emax (exact x) (exact y) with
      | S754_infinity _ => Raise OverflowError
      | q => Return q
      end
  | _, _ =>
    match to_float a with
    | Raise e => Raise e
    | Return x =>
      match to_float b with
      | Raise e => Raise e
      | Return y =>
        if is_zero b then Raise ZeroDivisionError
        else Return (SFdiv prec emax x y)
      end
    end
  end.

(** [x * y] for an int [x] and a float [y]. *)
Definition mul_int_float (x : Z) (y : spec_float) : outcome spec_float :=
  match float_of_int x with
  | Raise e => Raise e
  | Return f => Return (SFmul prec emax f y)
  end.

(** The literal [0.5]. *)
Definition half : spec_float := S754_finite false 4503599627370496 (-53).

(** The literal [1.0]. *)
Definition one : spec_float := S754_finite false 4503599627370496 (-52).

(** [float('inf')]. *)
Definition inf : spec_float := S754_infinity false.

Definition as_number (v : value) : option number :=
  match v with
  | VInt z => Some (PyInt z)
  | VFloat f => Some (PyFloat f)
  | VBool b => Some (PyInt (if b then 1 else 0))
  | _ => None
  end.

End Number.

(** ** [src/comprehension/iteratingOverArg.py] *)

Module IterArg.
Import Iter Number.
Local Open Scope Z_scope.

Definition is_space (c : ascii) : bool :=
  let n := nat_of_ascii c in
  ((9 <=? n) && (n <=? 13) || (28 <=? n) && (n <=? 32))%nat.

Definition is_digit (c : ascii) : bool :=
  let n := nat_of_ascii c in
  ((48 <=? n) && (n <=? 57))%nat.

Definition digit (c : ascii) : Z := Z.of_nat (nat_of_ascii c) - 48.

Fixpoint lstrip (l : list ascii) : list ascii :=
  match l with
  | c :: r => if is_space c then lstrip r else l
  | [] => []
  end.

Definition strip (l : list ascii) : list ascii := rev (lstrip (rev (lstrip l))).

(** Decimal digits, single underscores allowed between two digits;
    [after_digit] tells whether the previous character was a digit. *)
Fixpoint digits (acc : Z) (after_digit : bool) (l : list ascii) : option Z :=
  match l with
  | [] => if after_digit then Some acc else None
  | c :: r =>
    if is_digit c then digits (10 * acc + digit c) true r
    else if Ascii.eqb c "_" && after_digit then digits acc false r
    else None
  end.

(** [int(s)] for a string: surrounding whitespace, an optional sign, decimal
    digits; [ValueError] otherwise. *)
Definition int_of_str (s : string) : outcome Z :=
  let l := strip (list_ascii_of_string s) in
  let '(negative, l) :=
    match l with
    | c :: r =>
      if Ascii.eqb c "-" then (true, r)
      else if Ascii.eqb c "+" then (false, r)
      else (false, l)
    | [] => (false, l)
    end in
  match digits 0 false l with
  | Some n => Return (if negative then - n else n)
  | None => Raise ValueError
  end.

(** [int(x)] for a float: truncation towards zero. *)
Definition int_of_float (f : spec_float) : outcome Z :=
  match f with
  | S754_zero _ => Return 0
  | S754_finite s m e =>
    let n := if 0 <=? e then Zpos m * 2 ^ e else Zpos m / 2 ^ (- e) in
    Return (if s then - n else n)
  | S754_infinity _ => Raise OverflowError
  | S754_nan => Raise ValueError
  end.

(** [int(x)] *)
Definition int_ (x : value) : outcome value :=
  match x with
  | VInt z => Return (VInt z)
  | VBool b => Return (VInt (if b then 1 else 0))
  | VStr s =>
    match int_of_str s with
    | Return z => Return (VInt z)
    | Raise e => Raise e
    end
  | VFloat f =>
    match int_of_float f with
    | Return z => Return (VInt z)
    | Raise e => Raise e
    end
  | VNone | VPair _ _ | VRef _ => Raise TypeError
  end.

(** [read_visits(data_path)], given the lines of the file at [data_path]:
    [for line in f: yield int(line)]. *)
Definition read_visits (lines : list string) : iterator value :=
  Generator false int_ (λ _, true) (ListIter (VStr <$> lines) O).

End IterArg.

(** ** [src/comprehension/generatorExpressionForLargeComprehension.py] *)

Module GenExpr.
Import Iter Number.
Local Open Scope Z_scope.

(** [len(x)] *)
Definition len (x : value) : outcome value :=
  match x with
  | VStr s => Return (VInt (Z.of_nat (String.length s)))
  | _ => Raise TypeError
  end.

(** [(x, x*0.5)] *)
Definition pair_with_half (x : value) : outcome value :=
  match x with
  | VInt z =>
    match mul_int_float z half with
    | Return f => Return (VPair x (VFloat f))
    | Raise e => Raise e
    end
  | _ => Raise TypeError
  end.

(** [it = (len(x) for x in open('my_file.txt'))], given the file's lines. *)
Definition it (lines : list string) : iterator value :=
  Generator false len (λ _, true) (ListIter (VStr <$> lines) O).

(** [roots = ((x, x*0.5) for x in it)] *)
Definition roots (it : iterator value) : iterator value :=
  Generator false pair_with_half (λ _, true) it.

End GenExpr.

(** ** [src/functions/returnNoneFunc.py] *)

Module ReturnNone.
Import Number.

(** First version: [None] stands for an undefined result. *)
Definition careful_divide_1 (a b : number) : outcome value :=
  match truediv a b with
  | Return q => Return (VFloat q)
  | Raise ZeroDivisionError => Return VNone
  | Raise e => Raise e
  end.

(** Second version: a [(success, result)] pair. *)
Definition careful_divide_2 (a b : number) : outcome value :=
  match truediv a b with
  | Return q => Return (VPair (VBool true) (VFloat q))
  | Raise ZeroDivisionError => Return (VPair (VBool false) VNone)
  | Raise e => Raise e
  end.

(** Third version: the [ZeroDivisionError] becomes a [ValueError]. *)
Definition careful_divide_3 (a b : number) : outcome value :=
  match truediv a b with
  | Return q => Return (VFloat q)
  | Raise ZeroDivisionError => Raise ValueError
  | Raise e => Raise e
  end.

(** Final version, with type annotations and docstring; same body. *)
Definition careful_divide (a b : number) : outcome value :=
  match truediv a b with
  | Return q => Return (VFloat q)
  | Raise ZeroDivisionError => Raise ValueError
  | Raise e => Raise e
  end.

End ReturnNone.

(** ** Call binding *)

Module Binder.

Inductive Zone :=
| PositionalOnly
| Flexible
| KeywordOnly.

#[global] Instance Zone_eq_dec : EqDecision Zone.
Proof. solve_decision. Defined.

(** A declared parameter: its name, its zone, and its default value
    ([None] marks a required parameter). The position is the index in the
    parameter list. A default is a value fixed when the list is built. *)
Record ParamDecl := {
  name : string;
  zone : Zone;
  default_value : option value;
}.

Inductive BindingError :=
| TooManyPositionalArgs
| UnexpectedKeyword
| UnknownParameter
| MissingRequiredArgument.

Definition names (paramSpec : list ParamDecl) : list string := name <$> paramSpec.

(** Step 1: the parameters that accept a positional argument, in declared
    order (the positional-only zone, then the flexible zone). *)
Definition positional_capable (paramSpec : list ParamDecl) : list ParamDecl :=
  filter (λ p, zone p ≠ KeywordOnly) paramSpec.

(** Step 2: positional arguments, left to right. *)
Fixpoint assign_positional (params : list ParamDecl) (positionalArgs : list value)
    (bound : gmap string value) {struct positionalArgs}
    : BindingError + gmap string value :=
  match positionalArgs with
  | [] => inr bound
  | arg :: rest =>
    match params with
    | [] => inl TooManyPositionalArgs
    | p :: params' => assign_positional params' rest (<[name p := arg]> bound)
    end
  end.

Definition find_param (paramSpec : list ParamDecl) (key : string) : option ParamDecl :=
  List.find (λ p, bool_decide (name p = key)) paramSpec.

(** Step 3: named arguments, in call order. *)
Fixpoint assign_named (paramSpec : list ParamDecl) (namedArgs : list (string * value))
    (bound : gmap string value) : BindingError + gmap string value :=
  match namedArgs with
  | [] => inr bound
  | (key, arg) :: rest =>
    match find_param paramSpec key with
    | None => inl UnknownParameter
    | Some p =>
      if bool_decide (zone p = PositionalOnly) || bool_decide (is_Some (bound !! key))
      then inl UnexpectedKeyword
      else assign_named paramSpec rest (<[key := arg]> bound)
    end
  end.

(** Step 4: declared defaults for what is still unbound. *)
Fixpoint fill_defaults (params : list ParamDecl) (bound : gmap string value)
    : BindingError + gmap string value :=
  match params with
  | [] => inr bound
  | p :: params' =>
    match bound !! name p with
    | Some _ => fill_defaults params' bound
    | None =>
      match default_value p with
      | Some d => fill_defaults params' (<[name p := d]> bound)
      | None => inl MissingRequiredArgument
      end
    end
  end.

(** Modelled from the spec: the resolver [bind(paramSpec, positionalArgs,
    namedArgs)] of section 4.2, which the snippets leave to the language
    runtime; the repository has only function signatures and call sites.
    Steps 1 to 4 in the order the spec gives them; no variadic catch-all is
    declared by any signature here. *)
Definition bind (paramSpec : list ParamDecl) (positionalArgs : list value)
    (namedArgs : list (string * value)) : BindingError + gmap string value :=
  match assign_positional (positional_capable paramSpec) positionalArgs ∅ with
  | inl e => inl e
  | inr bound =>
    match assign_named paramSpec namedArgs bound with
    | inl e => inl e
    | inr bound => fill_defaults paramSpec bound
    end
  end.

(** A parameter list Python accepts: distinct names, zones in the order
    positional-only, flexible, keyword-only. *)
Definition zone_rank (z : Zone) : nat :=
  match z with
  | PositionalOnly => 0
  | Flexible => 1
  | KeywordOnly => 2
  end.

Fixpoint zones_ordered (paramSpec : list ParamDecl) : bool :=
  match paramSpec with
  | p :: (q :: _) as rest => (zone_rank (zone p) <=? zone_rank (zone q)) && zones_ordered rest
  | _ => true
  end.

Definition well_formed (paramSpec : list ParamDecl) : Prop :=
  NoDup (names paramSpec) ∧ zones_ordered paramSpec = true.

(** The call supplies no argument for the parameter [x]: none of the
    positional arguments reaches it and no named argument carries its name. *)
Definition falls_back (paramSpec : list ParamDecl) (x : string)
    (positionalArgs : list value) (namedArgs : list (string * value)) : Prop :=
  (x ∉ take (length positionalArgs) (names (positional_capable paramSpec))) ∧
  (x ∉ fst <$> namedArgs).

(** The parameter specification of the spec's examples:
    positional-only [(a, b)], flexible [(c=10)], keyword-only [(d)]. *)
Definition example_spec : list ParamDecl :=
  [ {| name := "a"; zone := PositionalOnly; default_value := None |};
    {| name := "b"; zone := PositionalOnly; default_value := None |};
    {| name := "c"; zone := Flexible; default_value := Some (VInt 10) |};
    {| name := "d"; zone := KeywordOnly; default_value := None |} ].

End Binder.

(** ** [src/functions/onlyPositionalOrOnlyKeywordArgumentFunc.py] *)

Module PosKw.
Import Binder Number.
Local Open Scope Z_scope.

Definition required (x : string) (z : Zone) : ParamDecl :=
  {| name := x; zone := z; default_value := None |}.

Definition optional (x : string) (z : Zone) (d : value) : ParamDecl :=
  {| name := x; zone := z; default_value := Some d |}.

(** The signatures, in the order of the file. *)
Definition safe_divisor_params : list ParamDecl :=
  [ required "number" Flexible; required "divisor" Flexible;
    required "ignore_overflow" Flexible; required "ignore_zero_divisor" Flexible ].

Definition safe_divisor_b_params : list ParamDecl :=
  [ required "number" Flexible; required "divisor" Flexible;
    optional "ignore_overflow" Flexible (VBool false);
    optional "ignore_zero_divisor" Flexible (VBool false) ].

Definition safe_divisor_c_params : list ParamDecl :=
  [ required "numbers" Flexible; required "divisor" Flexible;
    optional "ignore_overflow" KeywordOnly (VBool false);
    optional "ignore_zero_divisor" KeywordOnly (VBool false) ].

Definition safe_divisor_d_params : list ParamDecl :=
  [ required "numerator" Flexible; required "denominator" Flexible;
    optional "ignore_overflow" KeywordOnly (VBool false);
    optional "ignore_zero_divisor" KeywordOnly (VBool false) ].

Definition safe_divisor_e_params : list ParamDecl :=
  [ required "numerator" PositionalOnly; required "denominator" PositionalOnly;
    optional "ignore_overflow" KeywordOnly (VBool false);
    optional "ignore_zero_divisor" KeywordOnly (VBool false) ].

Definition safe_divisor_f_params : list ParamDecl :=
  [ required "numerator" PositionalOnly; required "denominator" PositionalOnly;
    optional "ndigits" Flexible (VInt 10);
    optional "ignore_overflow" KeywordOnly (VBool false);
    optional "ignore_zero_divisor" KeywordOnly (VBool false) ].

(** [if x:] for the flags. *)
Definition truthy (v : value) : bool :=
  match v with
  | VBool b => b
  | VInt z => negb (z =? 0)
  | VFloat f => negb (float_is_zero f)
  | VStr s => negb (bool_decide (s = ""%string))
  | VNone => false
  | VPair _ _ | VRef _ => true
  end.

(** The body shared by [safe_divisor] to [safe_divisor_e], over the bound
    parameters [number] and [divisor] and the two flags. *)
Definition divide_body (number divisor ignore_overflow ignore_zero_divisor : value)
    : outcome value :=
  match as_number number, as_number divisor with
  | Some n, Some d =>
    match truediv n d with
    | Return q => Return (VFloat q)
    | Raise OverflowError =>
      if truthy ignore_overflow then Return (VInt 0) else Raise OverflowError
    | Raise ZeroDivisionError =>
      if truthy ignore_zero_divisor then Return (VFloat inf) else Raise ZeroDivisionError
    | Raise e => Raise e
    end
  | _, _ => Raise TypeError
  end.

(** A call: bind the arguments, then run the body on the bound values. *)
Definition call (paramSpec : list ParamDecl) (body : gmap string value → outcome value)
    (positionalArgs : list value) (namedArgs : list (string * value))
    : BindingError + outcome value :=
  match bind paramSpec positionalArgs namedArgs with
  | inl e => inl e
  | inr bound => inr (body bound)
  end.

Definition safe_divisor_c :=
  call safe_divisor_c_params
    (λ bound, divide_body (bound !!! "numbers") (bound !!! "divisor")
                (bound !!! "ignore_overflow") (bound !!! "ignore_zero_divisor")).

Definition safe_divisor_e :=
  call safe_divisor_e_params
    (λ bound, divide_body (bound !!! "numerator") (bound !!! "denominator")
                (bound !!! "ignore_overflow") (bound !!! "ignore_zero_divisor")).

End PosKw.

(** ** [src/functions/noneAndDocstringFunc.py] *)

Module NoneDocstring.
Import Binder.
Local Open Scope Z_scope.

(** The store: the dictionaries alive, by location. *)
Abbreviation store := (gmap loc (gmap string value)) (only parsing).

(** Evaluating a dictionary display such as [{}] creates a new object. *)
Definition alloc (d : gmap string value) (st : store) : loc * store :=
  let l := fresh (dom st) in (l, <[l := d]> st).

(** [obj[key] = v]; [None] stands for the error on a value that is not a
    live dictionary. *)
Definition setitem (obj : value) (key : string) (v : value) (st : store) : option store :=
  match obj with
  | VRef l =>
    match st !! l with
    | Some d => Some (<[l := <[key := v]> d]> st)
    | None => None
    end
  | _ => None
  end.

(** [obj[key]] *)
Definition getitem (obj : value) (key : string) (st : store) : option value :=
  match obj with
  | VRef l => st !! l ≫= (.!! key)
  | _ => None
  end.

(** The dictionary [obj] refers to. *)
Definition deref (obj : value) (st : store) : option (gmap string value) :=
  match obj with
  | VRef l => st !! l
  | _ => None
  end.

(** [foo is bar] *)
Definition is_ (x y : value) : bool :=
  match x, y with
  | VRef l, VRef l' => bool_decide (l = l')
  | VNone, VNone => true
  | _, _ => false
  end.

Section decode.
(** [json.loads]: from the [json] library; it returns the decoded value,
    allocating what it needs, or raises. *)
Variable json_loads : value → store → outcome value * store.

(** [def decode(data, default={})]: executing the definition evaluates the
    default once and keeps the resulting object in the parameter list. *)
Definition def_decode (st : store) : list ParamDecl * store :=
  let '(l, st) := alloc ∅ st in
  ([ {| name := "data"; zone := Flexible; default_value := None |};
     {| name := "default"; zone := Flexible; default_value := Some (VRef l) |} ], st).

(** A call of the first [decode], defined with the parameter list [params]. *)
Definition decode (params : list ParamDecl) (positionalArgs : list value)
    (namedArgs : list (string * value)) (st : store)
    : BindingError + outcome value * store :=
  match bind params positionalArgs namedArgs with
  | inl e => inl e
  | inr bound =>
    match json_loads (bound !!! "data") st with
    | (Raise ValueError, st) => inr (Return (bound !!! "default"), st)
    | r => inr r
    end
  end.

(** [def decode(data, default=None)] *)
Definition decode_fixed_params : list ParamDecl :=
  [ {| name := "data"; zone := Flexible; default_value := None |};
    {| name := "default"; zone := Flexible; default_value := Some VNone |} ].

(** A call of the fixed [decode]: a fresh dictionary per call. *)
Definition decode_fixed (positionalArgs : list value)
    (namedArgs : list (string * value)) (st : store)
    : BindingError + outcome value * store :=
  match bind decode_fixed_params positionalArgs namedArgs with
  | inl e => inl e
  | inr bound =>
    match json_loads (bound !!! "data") st with
    | (Raise ValueError, st) =>
      if is_ (bound !!! "default") VNone then
        let '(l, st) := alloc ∅ st in inr (Return (VRef l), st)
      else inr (Return (bound !!! "default"), st)
    | r => inr r
    end
  end.

End decode.

(** A stand-in decoder for running the snippet: it accepts decimal integers
    and rejects everything else, as [json.loads] does for ['bad data']. *)
Definition loads_int (data : value) (st : store) : outcome value * store :=
  match data with
  | VStr s =>
    match IterArg.digits 0 false (list_ascii_of_string s) with
    | Some n => (Return (VInt n), st)
    | None => (Raise ValueError, st)
    end
  | _ => (Raise TypeError, st)
  end.

End NoneDocstring.

(** ** The comprehensions of [comprehensionInsteadMapAndFilter.py], for any
    input list *)

Module Comprehension.
Import Iter.
Local Open Scope Z_scope.

(** [squares = []; for x in a: squares.append(x**2)] *)
Definition squares_loop (a : list Z) : list Z :=
  fold_left (λ squares x, squares ++ [x ^ 2]) a [].

(** [map(lambda x: x ** 2, a)] *)
Definition squares_map (a : list Z) : iterator Z :=
  MapObj MapFilter.square (ListIter a O).

(** [[x**2 for x in a if x % 2 == 0]] *)
Definition even_squares (a : list Z) : list Z :=
  fold_left (λ result x, if x `mod` 2 =? 0 then result ++ [x ^ 2] else result) a [].

(** [map(lambda x: x**2, filter(lambda x: x % 2 == 0, a))] *)
Definition alt (a : list Z) : iterator Z :=
  MapObj MapFilter.square (FilterObj MapFilter.even (ListIter a O)).

(** [{x: x**2 for x in a if x % 2 == 0}] *)
Definition even_squares_dict (a : list Z) : gmap Z Z :=
  fold_left (λ result x, if x `mod` 2 =? 0 then <[x := x ^ 2]> result else result) a ∅.

(** [{x**3 for x in a if x % 3 == 0}] *)
Definition threes_cube_set (a : list Z) : gset Z :=
  fold_left (λ result x, if x `mod` 3 =? 0 then result ∪ {[x ^ 3]} else result) a ∅.

End Comprehension.

(** ** The functions around [read_visits] in [iteratingOverArg.py] *)

Module Normalize.
Import Iter Number.
Local Open Scope Z_scope.

(** What a function receives as [numbers]: a container, whose [iter] gives
    the fresh iterator [make] at every call (a list, a [ReadVisits]), or an
    iterator, whose [iter] is the iterator itself, with its state. *)
Inductive iterable :=
| Container (make : iterator value)
| Iterator (it : iterator value).

(** [iter(numbers)] *)
Definition iter_ (numbers : iterable) : iterator value :=
  match numbers with
  | Container make => make
  | Iterator it => it
  end.

(** [numbers] once the iterator obtained from it has reached the state
    [it']: a container is unchanged, an iterator has advanced. *)
Definition advanced (numbers : iterable) (it' : iterator value) : iterable :=
  match numbers with
  | Container make => Container make
  | Iterator _ => Iterator it'
  end.

(** [for x in it: acc = body(acc, x)], with a bound on the number of
    items; an exception of the body or of the iterator leaves the loop. *)
Fixpoint for_loop {A : Type} (body : A → value → outcome A) (fuel : nat)
    (it : iterator value) (acc : A) : option (outcome A * iterator value) :=
  match fuel with
  | O => None
  | S k =>
    match produceNext it with
    | (Yield x, it') =>
      match body acc x with
      | Return acc' => for_loop body k it' acc'
      | Raise e => Some (Raise e, it')
      end
    | (StopIteration, it') => Some (Return acc, it')
    | (Error e, it') => Some (Raise e, it')
    end
  end.

(** [for x in numbers: ...]; the bound is always enough
    ([for_loop_remaining]). *)
Definition for_ {A : Type} (body : A → value → outcome A) (numbers : iterable)
    (acc : A) : outcome A * iterable :=
  match for_loop body (S (remaining (iter_ numbers))) (iter_ numbers) acc with
  | Some (r, it') => (r, advanced numbers it')
  | None => (Return acc, numbers)
  end.

(** [100 * x] *)
Definition times_100 (x : number) : number :=
  match x with
  | PyInt z => PyInt (100 * z)
  | PyFloat f => PyFloat (SFmul prec emax (exact 100) f)
  end.

(** [100 * value / total] *)
Definition percent (value_ total : value) : outcome value :=
  match as_number value_, as_number total with
  | Some v, Some t =>
    match truediv (times_100 v) t with
    | Return q => Return (VFloat q)
    | Raise e => Raise e
    end
  | _, _ => Raise TypeError
  end.

(** The loop body [results.append(100 * value / total)]. *)
Definition append_percent (total : value) (results : list value) (value_ : value)
    : outcome (list value) :=
  match percent value_ total with
  | Return p => Return (results ++ [p])
  | Raise e => Raise e
  end.

Section sum.
(** The [+] that [sum] applies, left to right, starting from [0]. *)
Variable add : value → value → outcome value.

(** [sum(numbers)] *)
Definition sum_ (numbers : iterable) : outcome value * iterable :=
  for_ add numbers (VInt 0).

Definition normalize (numbers : iterable) : outcome (list value) * iterable :=
  match sum_ numbers with
  | (Raise e, numbers) => (Raise e, numbers)
  | (Return total, numbers) => for_ (append_percent total) numbers []
  end.

(** [numbers = list(numbers)] first, then as [normalize]. *)
Definition normalize_copy (numbers : iterable) : outcome (list value) * iterable :=
  match list_ (iter_ numbers) with
  | (Raise e, it') => (Raise e, advanced numbers it')
  | (Return copy, it') =>
    (fst (normalize (Container (ListIter copy O))), advanced numbers it')
  end.


(** Both versions: [iter(numbers) is numbers] and
    [isinstance(numbers, Iterator)] hold exactly for an iterator. *)
Definition normalize_defensive (numbers : iterable) : outcome (list value) * iterable :=
  match numbers with
  | Iterator _ => (Raise TypeError, numbers)
  | Container _ => normalize numbers
  end.

End sum.


(** [+] on the ints and bools a file of visits holds. *)
Definition add_int (x y : value) : outcome value :=
  match as_number x, as_number y with
  | Some (PyInt a), Some (PyInt b) => Return (VInt (a + b))
  | _, _ => Raise TypeError
  end.

(** The monadic fold a [for] loop performs over the items [l]. *)
Fixpoint fold_outcome {A : Type} (body : A → value → outcome A) (l : list value)
    (acc : A) : outcome A :=
  match l with
  | [] => Return acc
  | x :: l' =>
    match body acc x with
    | Return acc' => fold_outcome body l' acc'
    | Raise e => Raise e
    end
  end.

End Normalize.

(** ** [index_file] of [generatorInsteadOfList.py] *)

Module IndexFile.
Local Open Scope Z_scope.

(** The frame of [index_file(handle)] between two calls of [next]: not
    started, with the lines of the file; suspended at a [yield], with the
    running [offset], the letters of the current line still to visit and
    the lines still to read; or returned. *)
Inductive frame :=
| Created (handle : list string)
| Suspended (offset : Z) (rest : string) (handle : list string)
| Finished.

(** Runs the outer [for] loop up to its [yield offset]; an empty line has
    no letters to visit. *)
Fixpoint next_line (offset : Z) (handle : list string) : signal Z * frame :=
  match handle with
  | [] => (StopIteration, Finished)
  | line :: handle' =>
    if IndexWords.truthy line then (Yield offset, Suspended offset line handle')
    else next_line offset handle'
  end.

(** Runs the inner [for] loop up to its [yield offset], then the outer one. *)
Fixpoint next_letter (offset : Z) (rest : string) (handle : list string)
    : signal Z * frame :=
  match rest with
  | EmptyString => next_line offset handle
  | String letter rest' =>
    let offset := offset + 1 in
    if Ascii.eqb letter " " then (Yield offset, Suspended offset rest' handle)
    else next_letter offset rest' handle
  end.

Definition next (it : frame) : signal Z * frame :=
  match it with
  | Created handle => next_line 0 handle
  | Suspended offset rest handle => next_letter offset rest handle
  | Finished => (StopIteration, Finished)
  end.

Definition index_file (handle : list string) : frame := Created handle.

(** Letters and lines the generator has not visited yet. *)
Definition unread_lines (handle : list string) : nat :=
  sum_list ((λ line, S (String.length line)) <$> handle).

Definition unread (it : frame) : nat :=
  match it with
  | Created handle => unread_lines handle
  | Suspended _ rest handle => String.length rest + unread_lines handle
  | Finished => O
  end.

(** [list(it)]; the bound is always enough ([index_file_list_total]). *)
Definition list_ (it : frame) : outcome (list Z) * frame :=
  match drain next (S (unread it)) it with
  | Some r => r
  | None => (Return [], it)
  end.

(** What [index_words] gives for each line, shifted by the number of
    characters before the line. *)
Fixpoint shifted_words (offset : Z) (handle : list string) : list Z :=
  match handle with
  | [] => []
  | line :: handle' =>
    ((λ index, offset + index) <$> IndexWords.index_words line)
    ++ shifted_words (offset + Z.of_nat (String.length line)) handle'
  end.

End IndexFile.

(** ** [move], [pause] and [animate] of [multipleGeneratorWithYield.py] *)

Module Animate.
Import Iter Number.
Local Open Scope Z_scope.

(** [for _ in range(period): yield speed] *)
Definition move (period : Z) (speed : value) : iterator value :=
  Generator false (λ _, Return speed) (λ _, true)
            (ListIter (VInt <$> YieldFrom.range period) O).

(** [for _ in range(delay): yield 0] *)
Definition pause (delay : Z) : iterator value :=
  Generator false (λ _, Return (VInt 0)) (λ _, true)
            (ListIter (VInt <$> YieldFrom.range delay) O).

(** A generator that runs sub-generators one after the other, yielding
    what each yields ([for delta in g: yield delta], or [yield from g]):
    its frame is the list of sub-generators still to run, the current one
    first. An exception of a sub-generator ends the frame. *)
Fixpoint next (segments : list (iterator value))
    : signal value * list (iterator value) :=
  match segments with
  | [] => (StopIteration, [])
  | g :: rest =>
    match produceNext g with
    | (Yield delta, g') => (Yield delta, g' :: rest)
    | (StopIteration, _) => next rest
    | (Error e, _) => (Error e, [])
    end
  end.

(** The literals [5.0] and [3.0]. *)
Definition five : spec_float := S754_finite false 5629499534213120 (-50).
Definition three : spec_float := S754_finite false 6755399441055744 (-51).

(** [animate()]: [move(4, 5.0)], then [pause(3)], then [move(2, 3.0)]. *)
Definition animate : list (iterator value) :=
  [move 4 (VFloat five); pause 3; move 2 (VFloat three)].

(** [animate_composed()]: the same three generators under [yield from]. *)
Definition animate_composed : list (iterator value) :=
  [move 4 (VFloat five); pause 3; move 2 (VFloat three)].

Definition unread (segments : list (iterator value)) : nat :=
  sum_list (remaining <$> segments).

(** [list(it)]; the bound is always enough ([chain_list_total]). *)
Definition list_ (segments : list (iterator value))
    : outcome (list value) * list (iterator value) :=
  match drain next (S (unread segments)) segments with
  | Some r => r
  | None => (Return [], segments)
  end.

End Animate.

(** * Properties *)

(** ** The iterator protocol *)

Module IterFacts.
Import Iter.

Section facts.
Context {V : Type}.
Implicit Types (it up : iterator V) (s : signal V).

#[local] Ltac invert H := inversion H; subst; clear H.

(** A step keeps the pipeline and never moves the cursor backwards; a
    yielded item uses up at least one item of the underlying sequence. *)
Lemma next_invariants n it s it' :
  next n it = Some (s, it') →
  depth it' = depth it ∧ skeleton it' = skeleton it ∧
  remaining it' ≤ remaining it ∧ cursor it ≤ cursor it' ∧
  (∀ x, s = Yield x → remaining it' < remaining it).
Proof.
  revert it s it'. induction n as [|n IH]; intros it s it' H; [done|].
  destruct it as [seq i|f up|p up|[] f p up]; simpl in H.
  - destruct (seq !! i) eqn:E; invert H; simpl; repeat split; try lia; try done.
    intros _ _. apply lookup_lt_Some in E. lia.
  - destruct (next n up) as [[[x| |e] up']|] eqn:E; try done;
      apply IH in E as (?&?&?&?&Hy);
      [destruct (f x)|..]; invert H; simpl; repeat split; try congruence; try lia;
      intros; try done; eapply Hy; eauto.
  - destruct (next n up) as [[[x| |e] up']|] eqn:E; try done;
      apply IH in E as (?&?&?&?&Hy).
    + destruct (p x).
      * invert H; simpl; repeat split; try congruence; try lia.
        intros; eapply Hy; eauto.
      * apply IH in H as (?&?&?&?&Hy'). simpl in *.
        specialize (Hy x eq_refl).
        repeat split; try congruence; lia.
    + invert H; simpl; repeat split; try congruence; try lia; done.
    + invert H; simpl; repeat split; try congruence; try lia; done.
  - invert H; simpl; repeat split; try lia; done.
  - destruct (next n up) as [[[x| |e] up']|] eqn:E; try done;
      apply IH in E as (?&?&?&?&Hy).
    + destruct (p x).
      * destruct (f x); invert H; simpl; repeat split; try congruence; try lia;
          intros; try done; eapply Hy; eauto.
      * apply IH in H as (?&?&?&?&Hy'). simpl in *.
        specialize (Hy x eq_refl).
        repeat split; try congruence; lia.
    + invert H; simpl; repeat split; try congruence; try lia; done.
    + invert H; simpl; repeat split; try congruence; try lia; done.
Qed.

(** More fuel never changes an answer. *)
Lemma next_mono n m it r : next n it = Some r → n ≤ m → next m it = Some r.
Proof.
  revert m it r. induction n as [|n IH]; intros m it r H Hle; [done|].
  destruct m as [|m]; [lia|]. assert (n ≤ m) as Hnm by lia.
  destruct it as [seq i|f up|p up|[] f p up]; simpl in *; try done.
  - destruct (next n up) as [[[x| |e] up']|] eqn:E; try done;
      rewrite (IH _ _ _ E Hnm); done.
  - destruct (next n up) as [[[x| |e] up']|] eqn:E; try done;
      rewrite (IH _ _ _ E Hnm); try done.
    destruct (p x); [done|]. by apply IH.
  - destruct (next n up) as [[[x| |e] up']|] eqn:E; try done;
      rewrite (IH _ _ _ E Hnm); try done.
    destruct (p x); [done|]. by apply IH.
Qed.

(** [budget it] steps are enough for one call of [next]. *)
Lemma next_total n it : budget it ≤ n → is_Some (next n it).
Proof.
  unfold budget. revert it. induction n as [|n IH]; intros it Hn; [lia|].
  destruct it as [seq i|f up|p up|[] f p up]; simpl in *.
  - destruct (seq !! i); eauto.
  - destruct (IH up) as [[[x| |e] up'] E]; [lia|..]; rewrite E; [destruct (f x)|..]; eauto.
  - destruct (IH up) as [[[x| |e] up'] E]; [lia|..]; rewrite E; eauto.
    destruct (p x); eauto. apply next_invariants in E as (?&?&?&?&Hy).
    specialize (Hy x eq_refl). apply IH. simpl. lia.
  - eauto.
  - destruct (IH up) as [[[x| |e] up'] E]; [lia|..]; rewrite E; eauto.
    destruct (p x); [destruct (f x); eauto|].
    apply next_invariants in E as (?&?&?&?&Hy).
    specialize (Hy x eq_refl). apply IH. simpl. lia.
Qed.

Lemma next_budget n it : budget it ≤ n → next n it = Some (produceNext it).
Proof.
  intros Hn. unfold produceNext.
  destruct (next_total (budget it) it) as [r Hr]; [done|].
  rewrite Hr. eapply next_mono; eauto.
Qed.

(** [produceNext] never falls back on its default: it is [next] at any
    sufficient bound. *)
Lemma produceNext_fuel n it s it' :
  next n it = Some (s, it') → produceNext it = (s, it').
Proof.
  intros H. pose proof (next_budget (n `max` budget it) it ltac:(lia)) as Hb.
  rewrite (next_mono _ (n `max` budget it) _ _ H) in Hb by lia. congruence.
Qed.

(** The equations of [next], one per kind of iterator. *)
Lemma produceNext_ListIter (seq : list V) i :
  produceNext (ListIter seq i) =
  match seq !! i with
  | Some x => (Yield x, ListIter seq (S i))
  | None => (StopIteration, ListIter seq i)
  end.
Proof. unfold produceNext. simpl. by destruct (seq !! i). Qed.

#[local] Ltac step_equation it up :=
  let H := fresh "H" in
  let k := fresh "k" in
  let Hk := fresh "Hk" in
  assert (∃ k, budget up ≤ k ∧ next (S k) it = Some (produceNext it))
    as (k & Hk & H)
    by (exists (budget up); split;
        [done | apply next_budget; unfold budget; simpl; lia]);
  simpl in H; rewrite (next_budget k up Hk) in H;
  destruct (produceNext up) as [[?x| |?e] ?up'];
  repeat match type of H with
  | context [if ?b then _ else _] => destruct b
  | context [match ?o with Return _ => _ | Raise _ => _ end] => destruct o
  end;
  first [ by injection H | by destruct (produceNext it); apply produceNext_fuel in H ].

Lemma produceNext_MapObj f up :
  produceNext (MapObj f up) =
  match produceNext up with
  | (Yield x, up') =>
    match f x with
    | Return y => (Yield y, MapObj f up')
    | Raise e => (Error e, MapObj f up')
    end
  | (StopIteration, up') => (StopIteration, MapObj f up')
  | (Error e, up') => (Error e, MapObj f up')
  end.
Proof. step_equation (MapObj f up) up. Qed.

Lemma produceNext_FilterObj p up :
  produceNext (FilterObj p up) =
  match produceNext up with
  | (Yield x, up') =>
    if p x then (Yield x, FilterObj p up') else produceNext (FilterObj p up')
  | (StopIteration, up') => (StopIteration, FilterObj p up')
  | (Error e, up') => (Error e, FilterObj p up')
  end.
Proof. step_equation (FilterObj p up) up. Qed.

Lemma produceNext_finished f p up :
  produceNext (Generator true f p up) = (StopIteration, Generator true f p up).
Proof. done. Qed.

Lemma produceNext_Generator f p up :
  produceNext (Generator false f p up) =
  match produceNext up with
  | (Yield x, up') =>
    if p x then
      match f x with
      | Return y => (Yield y, Generator false f p up')
      | Raise e => (Error e, Generator true f p up')
      end
    else produceNext (Generator false f p up')
  | (StopIteration, up') => (StopIteration, Generator true f p up')
  | (Error e, up') => (Error e, Generator true f p up')
  end.
Proof. step_equation (Generator false f p up) up. Qed.

(** Once [next] has answered with the exhaustion marker, the state it
    leaves answers with the marker again and does not change. *)
Lemma stop_stable n it it' :
  next n it = Some (StopIteration, it') → produceNext it' = (StopIteration, it').
Proof.
  revert it it'. induction n as [|n IH]; intros it it' H; [done|].
  destruct it as [seq i|f up|p up|[] f p up]; simpl in H.
  - destruct (seq !! i) eqn:E; invert H. by rewrite produceNext_ListIter, E.
  - destruct (next n up) as [[[x| |e] up']|] eqn:E; try done.
    + destruct (f x); done.
    + invert H. by rewrite produceNext_MapObj, (IH _ _ E).
  - destruct (next n up) as [[[x| |e] up']|] eqn:E; try done.
    + destruct (p x); [done|]. by eapply IH.
    + invert H. by rewrite produceNext_FilterObj, (IH _ _ E).
  - by invert H.
  - destruct (next n up) as [[[x| |e] up']|] eqn:E; try done.
    + destruct (p x); [destruct (f x); done|]. by eapply IH.
    + by invert H.
Qed.

Lemma produceNext_stop_stable it it' :
  produceNext it = (StopIteration, it') → produceNext it' = (StopIteration, it').
Proof.
  intros H. eapply (stop_stable (budget it)). by rewrite next_budget, H.
Qed.

Lemma pull_exhausted it n :
  produceNext it = (StopIteration, it) → pull n it = (replicate n StopIteration, it).
Proof. intros H. induction n as [|n IH]; simpl; [done|]. by rewrite H, IH. Qed.

Lemma produceNext_invariants it s it' :
  produceNext it = (s, it') →
  depth it' = depth it ∧ skeleton it' = skeleton it ∧
  remaining it' ≤ remaining it ∧ cursor it ≤ cursor it' ∧
  (∀ x, s = Yield x → remaining it' < remaining it).
Proof.
  intros H. apply (next_invariants (budget it)). by rewrite next_budget, H.
Qed.

(** [S (remaining it)] items are enough for [list(it)]. *)
Lemma drain_total n it : remaining it < n → is_Some (drain produceNext n it).
Proof.
  revert it. induction n as [|n IH]; intros it Hn; [lia|]. simpl.
  destruct (produceNext it) as [[x| |e] it'] eqn:E; eauto.
  apply produceNext_invariants in E as (_&_&_&_&Hy). specialize (Hy x eq_refl).
  destruct (IH it') as [[[l|e] it''] E']; [lia|..]; rewrite E'; eauto.
Qed.

Lemma drain_S {St} (step : St → signal V * St) k st :
  drain step (S k) st =
  match step st with
  | (Yield x, st') =>
    match drain step k st' with
    | Some (Return l, st'') => Some (Return (x :: l), st'')
    | r => r
    end
  | (StopIteration, st') => Some (Return [], st')
  | (Error e, st') => Some (Raise e, st')
  end.
Proof. done. Qed.

Lemma drain_mono {St} (step : St → signal V * St) n m st r :
  drain step n st = Some r → n ≤ m → drain step m st = Some r.
Proof.
  revert m st r. induction n as [|n IH]; intros m st r H Hle; [done|].
  destruct m as [|m]; [lia|]. simpl in *.
  destruct (step st) as [[x| |e] st']; try done.
  destruct (drain step n st') as [r'|] eqn:E; [|done].
  rewrite (IH m _ _ E) by lia. done.
Qed.

Lemma drain_remaining n it :
  remaining it < n → drain produceNext n it = Some (list_ it).
Proof.
  intros Hn. unfold list_.
  destruct (drain_total (S (remaining it)) it) as [r Hr]; [lia|].
  rewrite Hr. eapply drain_mono; [done|lia].
Qed.

Lemma list_fuel n it r : drain produceNext n it = Some r → list_ it = r.
Proof.
  intros H. pose proof (drain_remaining (n `max` S (remaining it)) it ltac:(lia)) as E.
  rewrite (drain_mono _ _ (n `max` S (remaining it)) _ _ H) in E by lia. congruence.
Qed.

(** [list(it)] unfolded by one call of [next]. *)
Lemma list_unfold it :
  list_ it =
  match produceNext it with
  | (Yield x, it') =>
    match list_ it' with
    | (Return l, it'') => (Return (x :: l), it'')
    | r => r
    end
  | (StopIteration, it') => (Return [], it')
  | (Error e, it') => (Raise e, it')
  end.
Proof.
  apply (list_fuel (S (S (remaining it)))). rewrite drain_S.
  destruct (produceNext it) as [[x| |e] it'] eqn:E; try done.
  apply produceNext_invariants in E as (_&_&?&_&_).
  rewrite (drain_remaining _ it') by lia.
  by destruct (list_ it') as [[l|e] it''].
Qed.

(** What [list(it)] leaves behind is exhausted. *)
Lemma list_exhausts it l it' :
  list_ it = (Return l, it') → produceNext it' = (StopIteration, it').
Proof.
  remember (remaining it) as n eqn:Hn. revert it Hn l it'.
  induction (lt_wf n) as [n _ IH]; intros it -> l it' H.
  rewrite list_unfold in H.
  destruct (produceNext it) as [[x| |e] it1] eqn:E; try done.
  - pose proof E as (_&_&_&_&Hy)%produceNext_invariants. specialize (Hy x eq_refl).
    destruct (list_ it1) as [[l1|e1] it2] eqn:E1; [|done].
    invert H. by eapply (IH _ Hy it1).
  - invert H. by eapply produceNext_stop_stable.
Qed.

(** [list(iter(seq))] from the cursor on. *)
Lemma list_ListIter (seq : list V) i :
  list_ (ListIter seq i) = (Return (drop i seq), ListIter seq (i `max` length seq)).
Proof.
  remember (length seq - i) as n eqn:Hn. revert i Hn.
  induction n as [|n IH]; intros i Hn; rewrite list_unfold, produceNext_ListIter.
  - rewrite (lookup_ge_None_2 seq i) by lia. rewrite drop_ge by lia.
    by replace (i `max` length seq) with i by lia.
  - destruct (lookup_lt_is_Some_2 seq i) as [x Hx]; [lia|]. rewrite Hx.
    rewrite (IH (S i)) by lia. rewrite (drop_S _ _ _ Hx).
    by replace (S i `max` length seq) with (i `max` length seq) by lia.
Qed.

(** A generator that yields every item of its source unchanged gives the
    list its source gives, and is finished afterwards. *)
Lemma list_passthrough up :
  list_ (Generator false Return (λ _, true) up) =
  let '(r, up') := list_ up in (r, Generator true Return (λ _, true) up').
Proof.
  remember (remaining up) as n eqn:Hn. revert up Hn.
  induction (lt_wf n) as [n _ IH]; intros up ->.
  rewrite list_unfold, (list_unfold up), produceNext_Generator.
  destruct (produceNext up) as [[x| |e] up1] eqn:E; try done.
  pose proof E as (_&_&_&_&Hy)%produceNext_invariants. specialize (Hy x eq_refl).
  rewrite (IH _ Hy up1 eq_refl). by destruct (list_ up1) as [[l|e] up2].
Qed.

End facts.
End IterFacts.

(** ** Lazy sequences *)

Module LazySequence.
Import Iter IterFacts.

Section spec.
Context {V : Type}.
Implicit Types (it up : iterator V).

(** A generator that yields has pulled its source once for the item it
    yields and once for every item its predicate rejected before it. *)
Lemma generator_yield f p up y d' :
  produceNext (Generator false f p up) = (Yield y, d') →
  ∃ skipped x up',
    pull (S (length skipped)) up = (Yield <$> skipped ++ [x], up') ∧
    Forall (λ z, p z = false) skipped ∧ p x = true ∧ f x = Return y ∧
    d' = Generator false f p up'.
Proof.
  remember (remaining up) as n eqn:Hn. revert up Hn.
  induction (lt_wf n) as [n _ IH]; intros up -> H.
  rewrite produceNext_Generator in H.
  destruct (produceNext up) as [[x0| |e] up1] eqn:E; try done.
  destruct (p x0) eqn:Hp.
  - destruct (f x0) eqn:Hf; [|done]. injection H as -> <-.
    exists [], x0, up1. simpl. rewrite E. done.
  - pose proof E as (_&_&_&_&Hy)%produceNext_invariants. specialize (Hy x0 eq_refl).
    destruct (IH _ Hy up1 eq_refl H) as (skipped & x & up' & Hpull & Hsk & ? & ? & ?).
    exists (x0 :: skipped), x, up'. split_and!; try done; [|by constructor].
    change (pull (S (length (x0 :: skipped))) up) with
      (let '(s, it') := produceNext up in
       let '(ss, it'') := pull (S (length skipped)) it' in (s :: ss, it'')).
    by rewrite E, Hpull.
Qed.

(** C1: once a lazy sequence has answered with the exhaustion marker, every
    further [produceNext] answers with the marker again, whatever the number
    of calls: no error, no value, no repeat of earlier output; driving it
    again with [list] gives the empty list. *)
Theorem exhaustion_is_permanent it it' :
  produceNext it = (StopIteration, it') →
  ∀ n, pull n it' = (replicate n StopIteration, it') ∧
       list_ it' = (Return [], it').
Proof.
  intros H%produceNext_stop_stable n. split.
  - by apply pull_exhausted.
  - by rewrite list_unfold, H.
Qed.

(** C3: a lazy sequence built from a finite sequence [S] with a pass-through
    transform and no predicate, driven to exhaustion, produces exactly [S]
    in order, and is exhausted afterwards. *)
Theorem passthrough_yields_source (S : list V) :
  let it := create (ListIter S 0) (Some Return) None in
  fst (list_ it) = Return S ∧
  produceNext (snd (list_ it)) = (StopIteration, snd (list_ it)) ∧
  list_ (create (ListIter S 0) None None) = list_ it.
Proof.
  simpl. unfold create. simpl. rewrite list_passthrough, list_ListIter. done.
Qed.

(** C8: a [produceNext] on a lazy sequence that produces an output advances
    its upstream by one [produceNext] for the item behind the output, plus
    one for every item the predicate skipped before it (none when there is
    no predicate); the upstream may itself be a lazy sequence, advanced the
    same way. Transform, predicate and the pipeline below stay as built,
    and the cursor of the underlying sequence only moves forward. *)
Theorem domino_advance up transform predicate y d' :
  produceNext (create up transform predicate) = (Yield y, d') →
  ∃ skipped x up',
    pull (S (length skipped)) up = (Yield <$> skipped ++ [x], up') ∧
    Forall (λ z, default (λ _, true) predicate z = false) skipped ∧
    (predicate = None → skipped = []) ∧
    default (λ _, true) predicate x = true ∧
    default Return transform x = Return y ∧
    d' = create up' transform predicate ∧
    skeleton d' = skeleton (create up transform predicate) ∧
    cursor up ≤ cursor up'.
Proof.
  intros H. pose proof H as (_&Hsk&_&Hc&_)%produceNext_invariants.
  apply generator_yield in H as (skipped & x & up' & Hpull & Hall & Hp & Hf & ->).
  exists skipped, x, up'. split_and!; try done.
  intros ->. destruct skipped as [|z ?]; [done|]. by apply Forall_cons in Hall as [? _].
Qed.

End spec.

(** C1 at the generator of [read_visits] on a three-line file, after its
    three items. *)
Lemma exhaustion_is_permanent_witness :
  let it := snd (pull 3 (IterArg.read_visits ["15"; "35"; "80"]%string)) in
  let it' := snd (produceNext it) in
  produceNext it = (StopIteration, it') ∧
  pull 4 it' = (replicate 4 StopIteration, it') ∧ list_ it' = (Return [], it').
Proof.
  intros it it'. split; [reflexivity|].
  apply (exhaustion_is_permanent it). reflexivity.
Defined.

(** C8 at the first output of [A], which skips [1] and yields [2]. *)
Lemma domino_advance_witness :
  produceNext MapFilter.A = (Yield 2%Z, snd (produceNext MapFilter.A)) ∧
  ∃ skipped x up',
    pull (S (length skipped)) (ListIter MapFilter.a 0) = (Yield <$> skipped ++ [x], up') ∧
    Forall (λ z, MapFilter.even z = false) skipped ∧
    (Some MapFilter.even = None → skipped = []) ∧
    MapFilter.even x = true ∧
    Return x = Return 2%Z ∧
    snd (produceNext MapFilter.A) = create up' None (Some MapFilter.even) ∧
    skeleton (snd (produceNext MapFilter.A)) = skeleton MapFilter.A ∧
    0 ≤ cursor up'.
Proof.
  split; [reflexivity|].
  apply (domino_advance (ListIter MapFilter.a 0) None (Some MapFilter.even)).
  reflexivity.
Defined.

(** [slow()] and [fast()] both give [range(1_000_000)]. *)
Lemma slow_yields_range :
  fst (list_ YieldFrom.slow) = Return (YieldFrom.range 1000000) ∧
  fst (list_ YieldFrom.fast) = Return (YieldFrom.range 1000000).
Proof.
  unfold YieldFrom.slow, YieldFrom.fast, YieldFrom.slow_of, YieldFrom.fast_of,
    YieldFrom.child_of.
  by rewrite !list_passthrough, list_ListIter.
Qed.

(** Advancing [roots] once advances the generator below it once, which in
    turn reads one line. *)
Lemma roots_domino :
  let it := GenExpr.it ["ab"; "cde"]%string in
  fst (produceNext (GenExpr.roots it)) = Yield (VPair (VInt 2) (VFloat Number.one)) ∧
  snd (produceNext (GenExpr.roots it)) = GenExpr.roots (snd (produceNext it)) ∧
  cursor (snd (produceNext (GenExpr.roots it))) = 1.
Proof. intros it. split_and!; [vm_compute; reflexivity|reflexivity|vm_compute; reflexivity]. Qed.

(** [print(list(it)); print(list(it))]: the second list is empty. *)
Lemma read_visits_twice :
  let it := IterArg.read_visits ["15"; "35"; "80"]%string in
  fst (list_ it) = Return [VInt 15; VInt 35; VInt 80] ∧
  fst (list_ (snd (list_ it))) = Return [].
Proof. intros it. split; vm_compute; reflexivity. Qed.

End LazySequence.

(** ** The map / filter chain *)

Module MapFilterFacts.
Import Iter IterFacts MapFilter.

Lemma even_squares_value : even_squares = [4; 16; 36; 64; 100]%Z.
Proof. reflexivity. Qed.

(** [assert even_squares == list(alt)] *)
Lemma even_squares_alt : fst (list_ alt) = Return even_squares.
Proof. vm_compute. reflexivity. Qed.

(** C2, as stated, fails: [A]'s source is not consumed once per output of
    [B]; the first output alone consumes two items of the input. *)
Lemma source_not_consumed_once_per_output :
  ¬ (∀ k, k ≤ 5 → consumed_after k = k).
Proof. intros H. specialize (H 1 ltac:(lia)). vm_compute in H. discriminate. Qed.

(** C2, amended: [B] produces exactly [4, 16, 36, 64, 100]; for each of its
    outputs [B] pulls [A] exactly once (after [k] outputs the sequence [B]
    wraps is [A] advanced [k] times), and [A] consumes two items of its
    source per output: the odd one it skips and the even one it yields. *)
Theorem even_squares_chain :
  fst (list_ B) = Return [4; 16; 36; 64; 100]%Z ∧
  Forall (λ k, fst (pull k B) = Yield <$> take k [4; 16; 36; 64; 100]%Z ∧
               source (snd (pull k B)) = snd (pull k A) ∧
               consumed_after k = 2 * k)
         [0; 1; 2; 3; 4; 5] ∧
  cursor (snd (list_ B)) = 10.
Proof.
  split_and!; [vm_compute; reflexivity| |vm_compute; reflexivity].
  repeat constructor; vm_compute; reflexivity.
Qed.

End MapFilterFacts.

(** ** [index_words] and [index_words_iter] *)

Module IndexWordsFacts.
Import IndexWords.
Local Open Scope Z_scope.

(** The [for] loop of [index_words], from a suspended generator frame on:
    the generator yields what the loop appends. *)
Lemma drain_suspended rest :
  ∀ index n, (String.length rest < n)%nat →
  ∃ l, drain next n (Suspended index rest) = Some (Return l, Finished) ∧
       ∀ result,
         fold_left
           (λ result '(index, letter),
              if Ascii.eqb letter " " then result ++ [index + 1] else result)
           (enumerate_from index rest) result = result ++ l.
Proof.
  induction rest as [|letter rest IH]; intros index n Hn.
  - destruct n as [|n]; [lia|]. exists []. split; [done|].
    intros result. simpl. by rewrite app_nil_r.
  - destruct n as [|n]; [simpl in Hn; lia|]. simpl in Hn.
    destruct (Ascii.eqb letter " ") eqn:E.
    + destruct (IH (index + 1) n ltac:(lia)) as (l & Hl & Hfold).
      exists ((index + 1) :: l). split.
      * simpl. rewrite E, Hl. done.
      * intros result. simpl. rewrite E, Hfold, <- app_assoc. done.
    + destruct (IH (index + 1) (S n) ltac:(lia)) as (l & Hl & Hfold).
      exists l. split.
      * simpl in Hl |- *. rewrite E. exact Hl.
      * intros result. simpl. rewrite E. apply Hfold.
Qed.

(** A fresh generator, given enough steps, yields [index_words(text)]. *)
Lemma drain_created text n :
  (String.length text < n)%nat →
  drain next (S n) (Created text) = Some (Return (index_words text), Finished).
Proof.
  intros Hn. rewrite IterFacts.drain_S. unfold next at 1, index_words, enumerate.
  destruct (drain_suspended text 0 n Hn) as (l & Hl & Hfold).
  destruct (truthy text) eqn:T.
  - cbv beta iota. by rewrite Hl, Hfold.
  - by destruct text.
Qed.

(** The bound in [list_] is enough: [list] of the generator terminates. *)
Lemma list_total it : is_Some (drain next (S (unread it)) it).
Proof.
  destruct it as [text|index rest|].
  - unfold unread. rewrite drain_created by lia. by eexists.
  - destruct (drain_suspended rest index (S (String.length rest)) ltac:(lia)) as (l & Hl & _).
    unfold unread. rewrite Hl. by eexists.
  - by eexists.
Qed.

(** C9: for every string [text], the generator [index_words_iter(text)]
    driven to exhaustion produces exactly the list [index_words(text)]
    returns, in the same order. *)
Theorem index_words_iter_equiv (text : string) :
  list_ (index_words_iter text) = (Return (index_words text), Finished).
Proof.
  unfold list_, index_words_iter, unread. by rewrite drain_created by lia.
Qed.

(** The sample input of the snippet. *)
Lemma index_words_address :
  index_words "Four score and seven years ago..." = [0; 5; 11; 15; 21; 27].
Proof. reflexivity. Qed.

End IndexWordsFacts.

(** ** [careful_divide] *)

Module ReturnNoneFacts.
Import Number ReturnNone.
Local Open Scope Z_scope.

(** Division raises [ZeroDivisionError] only for a zero divisor. *)
Lemma truediv_ZeroDivisionError a b :
  truediv a b = Raise ZeroDivisionError → is_zero b = true.
Proof.
  unfold truediv, to_float, float_of_int.
  destruct a as [x|x], b as [y|y]; simpl;
    repeat match goal with
    | |- context [if ?c then _ else _] => destruct c eqn:?
    | |- context [match ?f with S754_zero _ => _ | _ => _ end] => destruct f
    end; congruence.
Qed.

(** Division raises nothing but [ZeroDivisionError] and [OverflowError]. *)
Lemma truediv_raises a b e :
  truediv a b = Raise e → e = ZeroDivisionError ∨ e = OverflowError.
Proof.
  unfold truediv, to_float, float_of_int.
  destruct a as [x|x], b as [y|y]; simpl;
    repeat match goal with
    | |- context [if ?c then _ else _] => destruct c eqn:?
    | |- context [match ?f with S754_zero _ => _ | _ => _ end] => destruct f
    end; intros [= <-]; auto.
Qed.

(** A zero divisor never gives a quotient. *)
Lemma truediv_zero a b q : is_zero b = true → truediv a b ≠ Return q.
Proof.
  unfold truediv, to_float, float_of_int.
  destruct a as [x|x], b as [y|y]; simpl; intros Hz; rewrite ?Hz;
    repeat match goal with
    | |- context [match ?f with S754_zero _ => _ | _ => _ end] => destruct f
    end; congruence.
Qed.

(** Float operands never overflow: the quotient is the IEEE one. *)
Lemma truediv_floats x y :
  truediv (PyFloat x) (PyFloat y) =
  if float_is_zero y then Raise ZeroDivisionError else Return (SFdiv prec emax x y).
Proof. done. Qed.

(** C10, as stated, fails: for the numeric inputs [1.0] and [10**500] the
    divisor is not zero, yet no quotient is returned: the [OverflowError]
    of the division escapes. *)
Lemma careful_divide_overflow_escapes :
  ¬ (∀ a b,
       (careful_divide a b = Raise ValueError ↔ is_zero b = true) ∧
       (is_zero b = false → ∃ q, careful_divide a b = Return (VFloat q))).
Proof.
  intros H.
  destruct (H (PyFloat one) (PyInt (10 ^ 500)))
    as [_ Hq].
  destruct Hq as [q Hq]; [reflexivity|]. vm_compute in Hq. discriminate.
Qed.

(** C10, amended: [careful_divide] never returns [None] and never lets a
    [ZeroDivisionError] escape, and it raises [ValueError] only for a zero
    divisor. When the division does not overflow the float range (it never
    does for two floats), it raises [ValueError] if and only if [b] is zero
    and otherwise returns the quotient [a / b]; an [OverflowError] of the
    division propagates unchanged. *)
Theorem careful_divide_spec a b :
  (careful_divide a b ≠ Return VNone ∧
   careful_divide a b ≠ Raise ZeroDivisionError ∧
   (careful_divide a b = Raise ValueError → is_zero b = true)) ∧
  (truediv a b ≠ Raise OverflowError →
   (careful_divide a b = Raise ValueError ↔ is_zero b = true) ∧
   (is_zero b = false →
    ∃ q, truediv a b = Return q ∧ careful_divide a b = Return (VFloat q))) ∧
  (truediv a b = Raise OverflowError → careful_divide a b = Raise OverflowError) ∧
  (∀ x y, a = PyFloat x → b = PyFloat y → truediv a b ≠ Raise OverflowError).
Proof.
  unfold careful_divide.
  destruct (truediv a b) as [q|e] eqn:E.
  - split_and!; try done.
    intros _. split; [split; [done|]|by eauto].
    intros Hz. by destruct (truediv_zero a b q Hz).
  - pose proof (truediv_raises _ _ _ E) as [-> | ->].
    + pose proof (truediv_ZeroDivisionError _ _ E) as Hz.
      split_and!; try done.
      intros _. split; [done|]. congruence.
    + split_and!; try done.
      intros x y -> ->. rewrite truediv_floats in E. by destruct (float_is_zero y).
Qed.

(** C10 at the call of the snippet, [x, y = 0, 5]. *)
Lemma careful_divide_spec_witness :
  truediv (PyInt 0) (PyInt 5) ≠ Raise OverflowError ∧
  (careful_divide (PyInt 0) (PyInt 5) = Raise ValueError ↔ is_zero (PyInt 5) = true) ∧
  (is_zero (PyInt 5) = false →
   ∃ q, truediv (PyInt 0) (PyInt 5) = Return q ∧
        careful_divide (PyInt 0) (PyInt 5) = Return (VFloat q)).
Proof.
  assert (truediv (PyInt 0) (PyInt 5) ≠ Raise OverflowError) as H
    by (vm_compute; discriminate).
  split; [exact H|].
  exact (proj1 (proj2 (careful_divide_spec (PyInt 0) (PyInt 5))) H).
Defined.

(** The first version does return [None], also for a zero numerator's
    sibling case [x, y = 1, 0]; the final one raises instead. *)
Lemma careful_divide_versions :
  careful_divide_1 (PyInt 1) (PyInt 0) = Return VNone ∧
  careful_divide_1 (PyInt 0) (PyInt 5) = Return (VFloat (S754_zero false)) ∧
  careful_divide_2 (PyInt 1) (PyInt 0) = Return (VPair (VBool false) VNone) ∧
  careful_divide_3 (PyInt 1) (PyInt 0) = Raise ValueError ∧
  careful_divide (PyInt 1) (PyInt 0) = Raise ValueError ∧
  careful_divide (PyInt 0) (PyInt 5) = Return (VFloat (S754_zero false)).
Proof. split_and!; vm_compute; reflexivity. Qed.

End ReturnNoneFacts.

(** ** Call binding *)

Module BinderFacts.
Import Binder.
Local Open Scope Z_scope.

Implicit Types (paramSpec params : list ParamDecl) (bound : gmap string value).

(** Positional arguments only bind the first [length positionalArgs]
    positional-capable parameters. *)
Lemma assign_positional_others params args bound bound' x :
  assign_positional params args bound = inr bound' →
  x ∉ take (length args) (names params) →
  bound' !! x = bound !! x.
Proof.
  revert params bound. induction args as [|arg args IH]; intros params bound H Hx.
  - by simplify_eq/=.
  - destruct params as [|p params]; [done|]. simpl in *.
    apply not_elem_of_cons in Hx as [Hne Hx].
    rewrite (IH _ _ H Hx). by rewrite lookup_insert_ne.
Qed.

Lemma assign_positional_too_many params args bound :
  (length params < length args)%nat →
  assign_positional params args bound = inl TooManyPositionalArgs.
Proof.
  revert params bound. induction args as [|arg args IH]; intros params bound Hlen.
  - simpl in Hlen. lia.
  - destruct params as [|p params]; [done|]. simpl in *. apply IH. lia.
Qed.

(** Named arguments only bind the names they carry. *)
Lemma assign_named_others paramSpec namedArgs bound bound' x :
  assign_named paramSpec namedArgs bound = inr bound' →
  x ∉ fst <$> namedArgs →
  bound' !! x = bound !! x.
Proof.
  revert bound. induction namedArgs as [|[key arg] rest IH]; intros bound H Hx.
  - by simplify_eq/=.
  - simpl in *. apply not_elem_of_cons in Hx as [Hne Hx].
    destruct (find_param paramSpec key); [|done].
    destruct (_ || _); [done|].
    rewrite (IH _ H Hx). by rewrite lookup_insert_ne.
Qed.

(** Filling in defaults leaves what is bound as it is. *)
Lemma fill_defaults_bound params bound bound' x v :
  fill_defaults params bound = inr bound' →
  bound !! x = Some v → bound' !! x = Some v.
Proof.
  revert bound. induction params as [|p params IH]; intros bound H Hx.
  - by simplify_eq/=.
  - simpl in H. destruct (bound !! name p) eqn:E; [by eapply IH|].
    destruct (default_value p) as [d|]; [|done].
    eapply IH; [done|]. rewrite lookup_insert_ne; [done|]. congruence.
Qed.

(** An unbound parameter receives its declared default. *)
Lemma fill_defaults_unbound params bound bound' x p d :
  fill_defaults params bound = inr bound' →
  bound !! x = None →
  find_param params x = Some p → default_value p = Some d →
  bound' !! x = Some d.
Proof.
  revert bound. induction params as [|p0 params IH]; intros bound H Hx Hp Hd; [done|].
  unfold find_param in Hp. simpl in H, Hp. case_bool_decide as Hn.
  - injection Hp as ->. rewrite Hn, Hx, Hd in H.
    eapply fill_defaults_bound; [done|]. by rewrite lookup_insert_eq.
  - destruct (bound !! name p0) eqn:E; [by eapply IH|].
    destruct (default_value p0) as [d0|]; [|done].
    eapply IH; eauto. by rewrite lookup_insert_ne.
Qed.

(** A parameter the call does not supply is bound to its declared default. *)
Lemma bind_falls_back paramSpec args kwargs bound x p d :
  bind paramSpec args kwargs = inr bound →
  falls_back paramSpec x args kwargs →
  find_param paramSpec x = Some p → default_value p = Some d →
  bound !! x = Some d.
Proof.
  unfold bind. intros H [Hpos Hnamed] Hp Hd.
  destruct (assign_positional _ _ _) as [|bound1] eqn:E1; [done|].
  destruct (assign_named _ _ _) as [|bound2] eqn:E2; [done|].
  eapply fill_defaults_unbound; eauto.
  rewrite (assign_named_others _ _ _ _ _ E2 Hnamed).
  by rewrite (assign_positional_others _ _ _ _ _ E1 Hpos).
Qed.

(** More positional arguments than positional-capable parameters. *)
Lemma bind_too_many paramSpec args kwargs :
  (length (positional_capable paramSpec) < length args)%nat →
  bind paramSpec args kwargs = inl TooManyPositionalArgs.
Proof. intros H. unfold bind. by rewrite assign_positional_too_many. Qed.

(** C4: against positional-only [(a, b)], flexible [(c=10)], keyword-only
    [(d)], [bind([1,2], {d:5})] succeeds with exactly
    [{a:1, b:2, c:10, d:5}]. *)
Theorem bind_example_ok :
  bind example_spec [VInt 1; VInt 2] [("d"%string, VInt 5)] =
  inr ({[ "a"%string := VInt 1; "b"%string := VInt 2;
          "c"%string := VInt 10; "d"%string := VInt 5 ]} : gmap string value).
Proof. reflexivity. Qed.

(** C5, as stated, fails: [bind([1,2,3], {})] is not rejected with
    [TooManyPositionalArgs]; the third argument goes to the flexible [c]. *)
Lemma three_positionals_not_too_many :
  bind example_spec [VInt 1; VInt 2; VInt 3] [] ≠ inl TooManyPositionalArgs.
Proof. vm_compute. discriminate. Qed.

(** C5, amended: against the same specification three positional arguments
    fill [a], [b] and the flexible [c]; [bind([1,2,3], {})] fails with
    [MissingRequiredArgument], for the keyword-only [d], and succeeds once
    [d] is named. [TooManyPositionalArgs] is the answer to more than three
    positional arguments. *)
Theorem bind_example_three_positionals :
  bind example_spec [VInt 1; VInt 2; VInt 3] [] = inl MissingRequiredArgument ∧
  bind example_spec [VInt 1; VInt 2; VInt 3] [("d"%string, VInt 5)] =
    inr ({[ "a"%string := VInt 1; "b"%string := VInt 2;
            "c"%string := VInt 3; "d"%string := VInt 5 ]} : gmap string value) ∧
  ∀ positionalArgs namedArgs,
    (3 < length positionalArgs)%nat →
    bind example_spec positionalArgs namedArgs = inl TooManyPositionalArgs.
Proof.
  split_and!; [reflexivity..|].
  intros positionalArgs namedArgs H. by apply bind_too_many.
Qed.

(** C5 at four positional arguments. *)
Lemma bind_example_three_positionals_witness :
  (3 < length [VInt 1; VInt 2; VInt 3; VInt 4])%nat ∧
  bind example_spec [VInt 1; VInt 2; VInt 3; VInt 4] [("d"%string, VInt 5)] =
    inl TooManyPositionalArgs.
Proof.
  split; [simpl; lia|].
  apply (proj2 (proj2 bind_example_three_positionals)). simpl; lia.
Defined.

(** C6: against the same specification, [bind([], {a:1, b:2, d:5})] fails
    with [UnexpectedKeyword]: [a] and [b] are positional-only. The order in
    which the three named arguments are written does not matter. *)
Theorem bind_example_positional_only_by_name :
  bind example_spec [] [("a"%string, VInt 1); ("b"%string, VInt 2); ("d"%string, VInt 5)] =
    inl UnexpectedKeyword ∧
  Forall (λ namedArgs, bind example_spec [] namedArgs = inl UnexpectedKeyword)
    (permutations [("a"%string, VInt 1); ("b"%string, VInt 2); ("d"%string, VInt 5)]).
Proof.
  split; [reflexivity|].
  set (l := permutations _). vm_compute in l. subst l.
  repeat (apply Forall_cons; split; [reflexivity|]). constructor.
Qed.

End BinderFacts.

(** ** The call sites of [onlyPositionalOrOnlyKeywordArgumentFunc.py] *)

Module PosKwFacts.
Import Binder Number PosKw.
Local Open Scope Z_scope.

(** [safe_divisor_c(1.0, 10**500, True, False)]: "takes 2 positional
    arguments but 4 were given". *)
Lemma safe_divisor_c_four_positionals :
  safe_divisor_c [VFloat one; VInt (10 ^ 500); VBool true; VBool false] [] =
  inl TooManyPositionalArgs.
Proof. reflexivity. Qed.

(** [safe_divisor_c(1.0, 10**500, ignore_overflow=True)] is [0] and
    [safe_divisor_c(1.0, 0, ignore_zero_divisor=True)] is [inf];
    [safe_divisor_c(1.0, 0)] raises [ZeroDivisionError]. *)
Lemma safe_divisor_c_flags :
  safe_divisor_c [VFloat one; VInt (10 ^ 500)] [("ignore_overflow"%string, VBool true)] =
    inr (Return (VInt 0)) ∧
  safe_divisor_c [VFloat one; VInt 0] [("ignore_zero_divisor"%string, VBool true)] =
    inr (Return (VFloat inf)) ∧
  safe_divisor_c [VFloat one; VInt 0] [] = inr (Raise ZeroDivisionError).
Proof. split_and!; reflexivity. Qed.

(** [assert safe_divisor_c(numbers=2, divisor=5) == 0.4] and its two
    variants: the three calls agree. *)
Lemma safe_divisor_c_mixed :
  safe_divisor_c [] [("numbers"%string, VInt 2); ("divisor"%string, VInt 5)] =
    inr (Return (VFloat (S754_finite false 7205759403792794 (-54)))) ∧
  safe_divisor_c [] [("divisor"%string, VInt 5); ("numbers"%string, VInt 2)] =
    safe_divisor_c [] [("numbers"%string, VInt 2); ("divisor"%string, VInt 5)] ∧
  safe_divisor_c [VInt 2] [("divisor"%string, VInt 5)] =
    safe_divisor_c [] [("numbers"%string, VInt 2); ("divisor"%string, VInt 5)].
Proof. split_and!; reflexivity. Qed.

(** [safe_divisor_d(numbers=2, divisor=5)]: "unexpected keyword argument
    'numbers'", a name the signature does not declare. *)
Lemma safe_divisor_d_renamed :
  bind safe_divisor_d_params [] [("numbers"%string, VInt 2); ("divisor"%string, VInt 5)] =
  inl UnknownParameter.
Proof. reflexivity. Qed.

(** [assert safe_divisor_e(2, 5) == 0.4];
    [safe_divisor_e(numerator=2, denominator=5)]: "positional-only
    arguments passed as keyword arguments". *)
Lemma safe_divisor_e_calls :
  safe_divisor_e [VInt 2; VInt 5] [] =
    inr (Return (VFloat (S754_finite false 7205759403792794 (-54)))) ∧
  safe_divisor_e [] [("numerator"%string, VInt 2); ("denominator"%string, VInt 5)] =
    inl UnexpectedKeyword.
Proof. split_and!; reflexivity. Qed.

(** [safe_divisor_f(22, 7)], [safe_divisor_f(22, 7, 5)] and
    [safe_divisor_f(22, 7, ndigits=2)] all bind; the third positional
    argument is [ndigits]. *)
Lemma safe_divisor_f_calls :
  let bound ndigits : gmap string value :=
    {[ "numerator"%string := VInt 22; "denominator"%string := VInt 7;
       "ndigits"%string := VInt ndigits;
       "ignore_overflow"%string := VBool false;
       "ignore_zero_divisor"%string := VBool false ]} in
  bind safe_divisor_f_params [VInt 22; VInt 7] [] = inr (bound 10) ∧
  bind safe_divisor_f_params [VInt 22; VInt 7; VInt 5] [] = inr (bound 5) ∧
  bind safe_divisor_f_params [VInt 22; VInt 7] [("ndigits"%string, VInt 2)] =
    inr (bound 2).
Proof. intros bound. split_and!; reflexivity. Qed.

End PosKwFacts.

(** ** Defaults evaluated at definition time *)

Module NoneDocstringFacts.
Import Binder BinderFacts NoneDocstring.
Local Open Scope Z_scope.

(** What is stored through a reference is read back through it. *)
Lemma getitem_setitem obj key v st st' :
  setitem obj key v st = Some st' → getitem obj key st' = Some v.
Proof.
  destruct obj as [| | | | | |l]; try done. simpl.
  destruct (st !! l) as [d|]; [|done]. intros [= <-].
  unfold getitem. rewrite lookup_insert_eq. simpl. by rewrite lookup_insert_eq.
Qed.

(** C7: a parameter whose declared default is a mutable container: any two
    [bind] calls that both fall back to the default receive the same
    object, the one held by the parameter list since its definition, so
    what is stored into it through the result of the first call is read
    through the result of the second. *)
Theorem shared_default paramSpec x p l args1 kwargs1 args2 kwargs2
    (bound1 bound2 : gmap string value) :
  find_param paramSpec x = Some p → default_value p = Some (VRef l) →
  bind paramSpec args1 kwargs1 = inr bound1 → falls_back paramSpec x args1 kwargs1 →
  bind paramSpec args2 kwargs2 = inr bound2 → falls_back paramSpec x args2 kwargs2 →
  bound1 !! x = Some (VRef l) ∧ bound2 !! x = Some (VRef l) ∧
  is_ (bound1 !!! x) (bound2 !!! x) = true ∧
  ∀ key v st st',
    setitem (bound1 !!! x) key v st = Some st' →
    getitem (bound2 !!! x) key st' = Some v.
Proof.
  intros Hp Hd H1 Hf1 H2 Hf2.
  pose proof (bind_falls_back _ _ _ _ _ _ _ H1 Hf1 Hp Hd) as E1.
  pose proof (bind_falls_back _ _ _ _ _ _ _ H2 Hf2 Hp Hd) as E2.
  rewrite !lookup_total_alt, E1, E2. simpl. split_and!; try done.
  - by apply bool_decide_eq_true.
  - intros key v st st'. apply (getitem_setitem (VRef l)).
Qed.

(** C7 at the two calls of the snippet, [decode('bad data')] and
    [decode('also bad')], against the parameter list [def decode] builds in
    the empty store. *)
Lemma shared_default_witness :
  let params := fst (def_decode ∅) in
  let p := {| name := "default"; zone := Flexible; default_value := Some (VRef 0) |} in
  let bound data : gmap string value :=
    {[ "data"%string := VStr data; "default"%string := VRef 0 ]} in
  let bound1 := bound "bad data"%string in
  let bound2 := bound "also bad"%string in
  (find_param params "default" = Some p ∧ default_value p = Some (VRef 0) ∧
   bind params [VStr "bad data"] [] = inr bound1 ∧
   falls_back params "default" [VStr "bad data"] [] ∧
   bind params [VStr "also bad"] [] = inr bound2 ∧
   falls_back params "default" [VStr "also bad"] []) ∧
  (bound1 !! "default"%string = Some (VRef 0) ∧
   bound2 !! "default"%string = Some (VRef 0) ∧
   is_ (bound1 !!! "default"%string) (bound2 !!! "default"%string) = true ∧
   ∀ key v st st',
     setitem (bound1 !!! "default"%string) key v st = Some st' →
     getitem (bound2 !!! "default"%string) key st' = Some v).
Proof.
  intros params p bound bound1 bound2.
  assert (∀ data, falls_back params "default" [VStr data] []) as Hf.
  { intros data. split; simpl.
    - apply not_elem_of_cons. split; [done|]. apply not_elem_of_nil.
    - apply not_elem_of_nil. }
  split; [split_and!; first [reflexivity | apply Hf]|].
  apply (shared_default params "default" p 0%nat
           [VStr "bad data"] [] [VStr "also bad"] []);
    first [reflexivity | apply Hf].
Defined.

Section decode.
Variable json_loads : value → store → outcome value * store.

(** Every call of the first [decode] whose data fails to parse returns the
    object allocated by [def decode], whatever happened to the store. *)
Lemma decode_returns_the_default st data st1 st1' :
  json_loads (VStr data) st1 = (Raise ValueError, st1') →
  decode json_loads (fst (def_decode st)) [VStr data] [] st1 =
  inr (Return (VRef (fresh (dom st))), st1').
Proof.
  intros H. unfold decode, def_decode, alloc. simpl fst.
  set (l := fresh (dom st)).
  replace (bind _ _ _) with
    (inr (<["default"%string := VRef l]> (<["data"%string := VStr data]> ∅))
     : BindingError + gmap string value) by (reflexivity).
  rewrite !lookup_total_alt. rewrite lookup_insert_ne by done.
  rewrite lookup_insert_eq. simpl. rewrite H. by rewrite lookup_insert_eq.
Qed.

(** The fixed [decode] allocates: its result is not an object alive before
    the call. *)
Lemma decode_fixed_is_fresh data st st' :
  json_loads (VStr data) st = (Raise ValueError, st') →
  decode_fixed json_loads [VStr data] [] st =
  inr (Return (VRef (fresh (dom st'))), <[fresh (dom st') := ∅]> st') ∧
  st' !! fresh (dom st') = None.
Proof.
  intros H. unfold decode_fixed, alloc. split.
  - replace (bind _ _ _) with
      (inr (<["default"%string := VNone]> (<["data"%string := VStr data]> ∅))
       : BindingError + gmap string value) by (reflexivity).
    rewrite !lookup_total_alt. rewrite lookup_insert_ne by done.
    rewrite lookup_insert_eq. simpl. rewrite H. by rewrite lookup_insert_eq.
  - apply not_elem_of_dom, is_fresh.
Qed.

End decode.

(** The snippet around the first [decode], statement by statement: [foo]
    and [bar] are the one dictionary at location [0], which ends up holding
    both keys ([assert foo is bar]). *)
Lemma decode_snippet :
  let params := fst (def_decode ∅) in
  let st0 : store := {[ 0%nat := ∅ ]} in
  let st2 : store := {[ 0%nat := {[ "stuff"%string := VInt 5 ]} ]} in
  let st4 : store :=
    {[ 0%nat := {[ "stuff"%string := VInt 5; "meep"%string := VInt 1 ]} ]} in
  let foo := VRef 0 in
  let bar := VRef 0 in
  snd (def_decode ∅) = st0 ∧
  decode loads_int params [VStr "bad data"] [] st0 = inr (Return foo, st0) ∧
  setitem foo "stuff" (VInt 5) st0 = Some st2 ∧
  decode loads_int params [VStr "also bad"] [] st2 = inr (Return bar, st2) ∧
  setitem bar "meep" (VInt 1) st2 = Some st4 ∧
  is_ foo bar = true ∧
  deref foo st4 = Some {[ "stuff"%string := VInt 5; "meep"%string := VInt 1 ]}.
Proof. intros. split_and!; reflexivity. Qed.

(** The snippet around the fixed [decode]: two dictionaries, one key each
    ([assert foo is not bar]). *)
Lemma decode_fixed_snippet :
  let st1 : store := {[ 0%nat := ∅ ]} in
  let st2 : store := {[ 0%nat := {[ "stuff"%string := VInt 5 ]} ]} in
  let st3 : store := {[ 0%nat := {[ "stuff"%string := VInt 5 ]}; 1%nat := ∅ ]} in
  let st4 : store :=
    {[ 0%nat := {[ "stuff"%string := VInt 5 ]};
       1%nat := {[ "meep"%string := VInt 1 ]} ]} in
  let foo := VRef 0 in
  let bar := VRef 1 in
  decode_fixed loads_int [VStr "bad data"] [] ∅ = inr (Return foo, st1) ∧
  setitem foo "stuff" (VInt 5) st1 = Some st2 ∧
  decode_fixed loads_int [VStr "also bad data"] [] st2 = inr (Return bar, st3) ∧
  setitem bar "meep" (VInt 1) st3 = Some st4 ∧
  is_ foo bar = false ∧
  deref foo st4 = Some {[ "stuff"%string := VInt 5 ]} ∧
  deref bar st4 = Some {[ "meep"%string := VInt 1 ]}.
Proof. intros. split_and!; reflexivity. Qed.

End NoneDocstringFacts.

(** ** Lists of maps, filters and generators *)

Module IterLists.
Import Iter IterFacts.

Section lists.
Context {V : Type}.
Implicit Types (it up : iterator V) (l : list V).

(** [list(map(f, up))] applies [f] to what [list(up)] gives, as long as [f]
    returns. *)
Lemma list_MapObj f (g : V → V) up l up' :
  list_ up = (Return l, up') →
  (∀ x, x ∈ l → f x = Return (g x)) →
  list_ (MapObj f up) = (Return (g <$> l), MapObj f up').
Proof.
  remember (remaining up) as n eqn:Hn. revert up Hn l.
  induction (lt_wf n) as [n _ IH]; intros up -> l H Hf.
  rewrite list_unfold in H. rewrite list_unfold, produceNext_MapObj.
  destruct (produceNext up) as [[x| |e] up1] eqn:E; try done.
  - pose proof E as (_&_&_&_&Hy)%produceNext_invariants. specialize (Hy x eq_refl).
    destruct (list_ up1) as [[l1|e1] up2] eqn:E1; [|done].
    injection H as <- <-. rewrite (Hf x) by apply list_elem_of_here.
    rewrite (IH _ Hy up1 eq_refl l1 E1); [done|].
    intros y Hy'. apply Hf. by apply list_elem_of_further.
  - by injection H as <- <-.
Qed.

(** [list(filter(p, up))] keeps the items of [list(up)] that satisfy [p]. *)
Lemma list_FilterObj p up l up' :
  list_ up = (Return l, up') →
  list_ (FilterObj p up) = (Return (List.filter p l), FilterObj p up').
Proof.
  remember (remaining up) as n eqn:Hn. revert up Hn l.
  induction (lt_wf n) as [n _ IH]; intros up -> l H.
  rewrite list_unfold in H. rewrite list_unfold, produceNext_FilterObj.
  destruct (produceNext up) as [[x| |e] up1] eqn:E; try done.
  - pose proof E as (_&_&_&_&Hy)%produceNext_invariants. specialize (Hy x eq_refl).
    destruct (list_ up1) as [[l1|e1] up2] eqn:E1; [|done].
    injection H as <- <-. simpl. destruct (p x).
    + by rewrite (IH _ Hy up1 eq_refl l1 E1).
    + rewrite <- list_unfold. by apply (IH _ Hy up1 eq_refl).
  - by injection H as <- <-.
Qed.

(** [list] of a generator [(f(x) for x in up if p(x))]: [f] applied to the
    items of [list(up)] that satisfy [p], as long as [f] returns; the
    generator is finished afterwards. *)
Lemma list_Generator f (g : V → V) p up l up' :
  list_ up = (Return l, up') →
  (∀ x, x ∈ l → p x = true → f x = Return (g x)) →
  list_ (Generator false f p up) = (Return (g <$> List.filter p l), Generator true f p up').
Proof.
  remember (remaining up) as n eqn:Hn. revert up Hn l.
  induction (lt_wf n) as [n _ IH]; intros up -> l H Hf.
  rewrite list_unfold in H. rewrite list_unfold, produceNext_Generator.
  destruct (produceNext up) as [[x| |e] up1] eqn:E; try done.
  - pose proof E as (_&_&_&_&Hy)%produceNext_invariants. specialize (Hy x eq_refl).
    destruct (list_ up1) as [[l1|e1] up2] eqn:E1; [|done].
    injection H as <- <-. simpl. destruct (p x) eqn:Hp.
    + rewrite (Hf x) by (done || apply list_elem_of_here).
      rewrite (IH _ Hy up1 eq_refl l1 E1); [done|].
      intros y Hy'. apply Hf. by apply list_elem_of_further.
    + rewrite <- list_unfold. apply (IH _ Hy up1 eq_refl); [done|].
      intros y Hy'. apply Hf. by apply list_elem_of_further.
  - by injection H as <- <-.
Qed.

Lemma filter_all (l : list V) : List.filter (λ _, true) l = l.
Proof. induction l as [|x l IH]; simpl; [done|]. by rewrite IH. Qed.

(** The same for a generator without condition. *)
Lemma list_Generator_all f (g : V → V) up l up' :
  list_ up = (Return l, up') →
  (∀ x, x ∈ l → f x = Return (g x)) →
  list_ (Generator false f (λ _, true) up) =
  (Return (g <$> l), Generator true f (λ _, true) up').
Proof.
  intros H Hf. rewrite (list_Generator f g _ up l up' H) by auto.
  by rewrite filter_all.
Qed.


End lists.
End IterLists.

(** ** Comprehensions against [map] and [filter] *)

Module ComprehensionFacts.
Import Iter IterFacts IterLists Comprehension.
Local Open Scope Z_scope.

(** A loop that appends [g x] for the items that pass [c]. *)
Lemma fold_left_append {A B} (c : A → bool) (g : A → B) (a : list A) (acc : list B) :
  fold_left (λ result x, if c x then result ++ [g x] else result) a acc =
  acc ++ (g <$> List.filter c a).
Proof.
  revert acc. induction a as [|x a IH]; intros acc; simpl.
  - by rewrite app_nil_r.
  - rewrite IH. destruct (c x); [|done]. by rewrite <- app_assoc.
Qed.

(** X1: for every input list, the list comprehension with a condition and
    the [map]/[filter] chain give the same list: the squares of the even
    items, in order. *)
Theorem even_squares_is_map_filter (a : list Z) :
  fst (list_ (alt a)) = Return (even_squares a) ∧
  even_squares a = (λ x, x ^ 2) <$> List.filter MapFilter.even a.
Proof.
  assert (even_squares a = (λ x, x ^ 2) <$> List.filter MapFilter.even a) as E.
  { unfold even_squares. by rewrite (fold_left_append MapFilter.even (λ x, x ^ 2)). }
  split; [|done]. unfold alt.
  erewrite (list_MapObj _ (λ x, x ^ 2)); [by rewrite E| |done].
  erewrite list_FilterObj; [done|]. by rewrite list_ListIter, drop_0.
Qed.

(** X2: for every input list, the loop with [append] and [map] with a
    lambda give the same list, one square per item. *)
Theorem squares_is_map (a : list Z) :
  fst (list_ (squares_map a)) = Return (squares_loop a) ∧
  squares_loop a = (λ x, x ^ 2) <$> a ∧
  length (squares_loop a) = length a.
Proof.
  assert (squares_loop a = (λ x, x ^ 2) <$> a) as E.
  { unfold squares_loop.
    rewrite (fold_left_append (λ _, true) (λ x, x ^ 2) a []). simpl.
    f_equal. induction a as [|x a IH]; simpl; [done|]. by rewrite IH. }
  split_and!; [|done|by rewrite E, length_fmap].
  unfold squares_map.
  erewrite (list_MapObj _ (λ x, x ^ 2)); [by rewrite E| |done].
  by rewrite list_ListIter, drop_0.
Qed.

(** X3: the dictionary comprehension maps exactly the even items of the
    input to their squares. *)
Theorem even_squares_dict_lookup (a : list Z) (x y : Z) :
  even_squares_dict a !! x = Some y ↔ x ∈ a ∧ x `mod` 2 = 0 ∧ y = x ^ 2.
Proof.
  unfold even_squares_dict.
  assert (∀ (d : gmap Z Z),
    fold_left (λ result x, if x `mod` 2 =? 0 then <[x := x ^ 2]> result else result) a d
      !! x = Some y ↔
    (x ∈ a ∧ x `mod` 2 = 0 ∧ y = x ^ 2) ∨
    ((x ∉ List.filter MapFilter.even a) ∧ d !! x = Some y))
    as H.
  { induction a as [|z a IH]; intros d; simpl.
    - split; [intros ?; right; split; [apply not_elem_of_nil|done]|].
      intros [(Hin&_)|[_ ?]]; [by apply elem_of_nil in Hin|done].
    - rewrite IH. unfold MapFilter.even. destruct (z `mod` 2 =? 0) eqn:Hz.
      + apply Z.eqb_eq in Hz. split.
        * intros [(?&?&?)|[Hn Hd]]; [left; split_and!; try done; by apply list_elem_of_further|].
          destruct (decide (x = z)) as [->|Hne].
          -- rewrite lookup_insert_eq in Hd. injection Hd as <-.
             left. split_and!; try done. apply list_elem_of_here.
          -- rewrite lookup_insert_ne in Hd by done. right. split; [|done].
             by apply not_elem_of_cons.
        * intros [(Hin&?&?)|[Hn Hd]].
          -- apply elem_of_cons in Hin as [->|Hin]; [|by left].
             destruct (decide (z ∈ List.filter MapFilter.even a)) as [Hf|Hf].
             ++ left. split_and!; try done.
                apply list_elem_of_In, filter_In in Hf as [Hf _]. by apply list_elem_of_In.
             ++ right. split; [done|]. subst. by rewrite lookup_insert_eq.
          -- apply not_elem_of_cons in Hn as [Hne Hn]. right. split; [done|].
             by rewrite lookup_insert_ne.
      + apply Z.eqb_neq in Hz. split.
        * intros [(?&?&?)|[Hn Hd]]; [left; split_and!; try done; by apply list_elem_of_further|].
          by right.
        * intros [(Hin&?&?)|[Hn Hd]]; [|by right].
          apply elem_of_cons in Hin as [->|Hin]; [done|]. by left. }
  rewrite H. split; [|by left]. intros [?|[_ Hd]]; [done|]. by rewrite lookup_empty in Hd.
Qed.

(** X4: the set comprehension holds exactly the cubes of the items of the
    input that are divisible by three. *)
Theorem threes_cube_set_elem (a : list Z) (y : Z) :
  y ∈ threes_cube_set a ↔ ∃ x, x ∈ a ∧ x `mod` 3 = 0 ∧ y = x ^ 3.
Proof.
  unfold threes_cube_set.
  assert (∀ (s : gset Z),
    y ∈ fold_left (λ result x, if x `mod` 3 =? 0 then result ∪ {[x ^ 3]} else result) a s ↔
    y ∈ s ∨ ∃ x, x ∈ a ∧ x `mod` 3 = 0 ∧ y = x ^ 3) as H.
  { induction a as [|z a IH]; intros s; simpl.
    - split; [by left|]. intros [?|(x&Hin&_)]; [done|by apply elem_of_nil in Hin].
    - rewrite IH. destruct (z `mod` 3 =? 0) eqn:Hz.
      + apply Z.eqb_eq in Hz. rewrite elem_of_union, elem_of_singleton. split.
        * intros [[?| ->]|(x&?&?&?)]; [by left|right|right].
          -- exists z. split_and!; try done. apply list_elem_of_here.
          -- exists x. split_and!; try done. by apply list_elem_of_further.
        * intros [?|(x&Hin&?&?)]; [by left; left|].
          apply elem_of_cons in Hin as [->|Hin]; [by left; right|].
          right. by exists x.
      + apply Z.eqb_neq in Hz. split.
        * intros [?|(x&?&?&?)]; [by left|right].
          exists x. split_and!; try done. by apply list_elem_of_further.
        * intros [?|(x&Hin&?&?)]; [by left|].
          apply elem_of_cons in Hin as [->|Hin]; [done|]. right. by exists x. }
  rewrite H. split; [|by right]. intros [Hin|?]; [|done]. by apply elem_of_empty in Hin.
Qed.

End ComprehensionFacts.

(** ** [read_visits] and the generator expression over a file *)

Module ReadVisitsFacts.
Import Iter IterFacts IterLists IterArg.






(** Advancing a generator without condition over a list [k] times, within
    the list: the next [k] items transformed, and the cursor [k] further. *)
Lemma pull_Generator {V} f (g : V → V) (seq : list V) k i :
  (∀ x, x ∈ seq → f x = Return (g x)) →
  i + k ≤ length seq →
  pull k (Generator false f (λ _, true) (ListIter seq i)) =
  (Yield ∘ g <$> take k (drop i seq), Generator false f (λ _, true) (ListIter seq (i + k))).
Proof.
  intros Hf. revert i. induction k as [|k IH]; intros i Hk.
  - simpl. by rewrite Nat.add_0_r.
  - simpl. rewrite produceNext_Generator, produceNext_ListIter.
    destruct (lookup_lt_is_Some_2 seq i) as [x Hx]; [lia|]. rewrite Hx.
    rewrite (Hf x) by (by eapply list_elem_of_lookup_2).
    rewrite (IH (S i)) by lia.
    rewrite (drop_S _ _ _ Hx). simpl. by rewrite Nat.add_succ_r.
Qed.

(** X7: the generator expression [(len(x) for x in open(...))] yields the
    length of every line, in order, as the list comprehension does; and it
    reads lazily: after [k] calls of [next] exactly [k] lines have been
    read, and the lengths of the first [k] lines have been produced. *)
Theorem genexpr_lengths (lines : list string) (k : nat) :
  k ≤ length lines →
  fst (list_ (GenExpr.it lines)) =
    Return ((λ line, VInt (Z.of_nat (String.length line))) <$> lines) ∧
  fst (pull k (GenExpr.it lines)) =
    Yield ∘ (λ line, VInt (Z.of_nat (String.length line))) <$> take k lines ∧
  cursor (snd (pull k (GenExpr.it lines))) = k.
Proof.
  intros Hk. unfold GenExpr.it.
  pose (g := λ v, match v with VStr s => VInt (Z.of_nat (String.length s)) | _ => v end).
  assert (∀ x, x ∈ VStr <$> lines → GenExpr.len x = Return (g x)) as Hg.
  { intros x Hx. by apply list_elem_of_fmap in Hx as (line & -> & _). }
  split_and!.
  - erewrite (list_Generator_all GenExpr.len g); [| by rewrite list_ListIter, drop_0 | done].
    simpl. f_equal. clear. induction lines as [|line lines IH]; [done|].
    rewrite !fmap_cons. by f_equal.
  - rewrite (pull_Generator GenExpr.len g _ k 0 Hg) by (rewrite length_fmap; lia).
    simpl. rewrite drop_0, <- fmap_take, <- !list_fmap_compose. done.
  - rewrite (pull_Generator GenExpr.len g _ k 0 Hg) by (rewrite length_fmap; lia).
    done.
Qed.

(** X7 at a two-line file, after one [next]. *)
Lemma genexpr_lengths_witness :
  1 ≤ length ["ab"; "cde"]%string ∧
  fst (pull 1 (GenExpr.it ["ab"; "cde"]%string)) = [Yield (VInt 2)] ∧
  cursor (snd (pull 1 (GenExpr.it ["ab"; "cde"]%string))) = 1.
Proof.
  assert (1 ≤ length ["ab"; "cde"]%string) as H by (simpl; lia).
  split; [exact H|]. exact (proj2 (genexpr_lengths ["ab"; "cde"]%string 1 H)).
Defined.

End ReadVisitsFacts.

(** ** [normalize] and its variants *)

Module NormalizeFacts.
Import Iter IterFacts IterLists IterArg Number Normalize.

Section loops.
Context {A : Type}.
Implicit Types (body : A → value → outcome A) (it : iterator value).

(** The bound in [for_] is enough. *)
Lemma for_loop_total body n it acc :
  remaining it < n → is_Some (for_loop body n it acc).
Proof.
  revert it acc. induction n as [|n IH]; intros it acc Hn; [lia|]. simpl.
  destruct (produceNext it) as [[x| |e] it'] eqn:E; eauto.
  apply produceNext_invariants in E as (_&_&_&_&Hy). specialize (Hy x eq_refl).
  destruct (body acc x); eauto. apply IH. lia.
Qed.

Lemma for_loop_mono body n m it acc r :
  for_loop body n it acc = Some r → n ≤ m → for_loop body m it acc = Some r.
Proof.
  revert m it acc. induction n as [|n IH]; intros m it acc H Hle; [done|].
  destruct m as [|m]; [lia|]. simpl in *.
  destruct (produceNext it) as [[x| |e] it']; try done.
  destruct (body acc x); [|done]. apply IH; [done|lia].
Qed.

(** A loop that ends normally has drained its iterator: it has run the body
    over all the items [list] would give. *)
Lemma for_loop_Return body n it acc a it' :
  for_loop body n it acc = Some (Return a, it') →
  ∃ l, list_ it = (Return l, it') ∧ fold_outcome body l acc = Return a.
Proof.
  revert it acc. induction n as [|n IH]; intros it acc H; [done|]. simpl in H.
  rewrite list_unfold.
  destruct (produceNext it) as [[x| |e] it1] eqn:E; try done.
  - destruct (body acc x) as [acc'|] eqn:Hb; [|done].
    destruct (IH _ _ H) as (l & Hl & Hf). exists (x :: l). rewrite Hl. simpl.
    by rewrite Hb.
  - injection H as <- <-. by exists [].
Qed.

(** Over an iterator that [list] drains, the loop is the fold of its body
    over the items, up to the first exception of the body. *)
Lemma for_loop_list body n it acc l it' :
  list_ it = (Return l, it') → remaining it < n →
  ∃ it'', for_loop body n it acc = Some (fold_outcome body l acc, it'').
Proof.
  revert it acc l. induction n as [|n IH]; intros it acc l H Hn; [lia|]. simpl.
  rewrite list_unfold in H.
  destruct (produceNext it) as [[x| |e] it1] eqn:E; try done.
  - pose proof E as (_&_&_&_&Hy)%produceNext_invariants. specialize (Hy x eq_refl).
    destruct (list_ it1) as [[l1|e1] it2] eqn:E1; [|done]. injection H as <- <-.
    simpl. destruct (body acc x) as [acc'|e]; [|by eexists].
    apply (IH it1 acc' l1); [done|lia].
  - injection H as <- <-. by eexists.
Qed.

(** A [for] loop over a container. *)
Lemma for_Container body make acc l it' :
  list_ make = (Return l, it') →
  for_ body (Container make) acc = (fold_outcome body l acc, Container make).
Proof.
  intros H. unfold for_. cbn [iter_ advanced].
  destruct (for_loop_list body (S (remaining make)) make acc l it' H) as [it'' ->]; [lia|].
  done.
Qed.

End loops.

(** Appending one percentage per item. *)
Lemma fold_append_percent_length total l results results' :
  fold_outcome (append_percent total) l results = Return results' →
  length results' = length results + length l.
Proof.
  revert results. induction l as [|x l IH]; intros results H; simpl in *.
  - injection H as <-. lia.
  - unfold append_percent in H at 1. destruct (percent x total); [|done].
    apply IH in H. rewrite length_app in H. simpl in *. lia.
Qed.

Section sum.
Variable add : value → value → outcome value.

(** [normalize] over a container that [list] drains: the sum, then one
    percentage per item. *)
Lemma normalize_Container make l it' :
  list_ make = (Return l, it') →
  normalize add (Container make) =
  (match fold_outcome add l (VInt 0) with
   | Return total => fold_outcome (append_percent total) l []
   | Raise e => Raise e
   end, Container make).
Proof.
  intros H. unfold normalize, sum_. rewrite (for_Container _ _ _ _ _ H).
  destruct (fold_outcome add l (VInt 0)); [|done]. by rewrite (for_Container _ _ _ _ _ H).
Qed.

(** X8: [normalize] on an iterator, such as the generator of
    [read_visits]: whenever the sum succeeds, the result is the empty list,
    whatever the iterator held: [sum] has exhausted it before the loop
    starts. *)
Theorem normalize_iterator_empty it total it' :
  sum_ add (Iterator it) = (Return total, Iterator it') →
  normalize add (Iterator it) = (Return [], Iterator it').
Proof.
  intros H. unfold normalize. rewrite H. unfold sum_, for_ in *. cbn [iter_ advanced] in *.
  destruct (for_loop_total add (S (remaining it)) it (VInt 0)) as [[r it1] E]; [lia|].
  rewrite E in H. injection H as -> ->.
  apply for_loop_Return in E as (l & Hl & _).
  apply list_exhausts in Hl. cbn [for_loop]. by rewrite Hl.
Qed.

(** The list [normalize] returns for a container has the length of the
    container. *)
Lemma normalize_Container_length make results numbers' :
  normalize add (Container make) = (Return results, numbers') →
  ∃ items, fst (list_ make) = Return items ∧
           length results = length items ∧ numbers' = Container make.
Proof.
  intros H. unfold normalize, sum_, for_ in H. cbn [iter_ advanced] in H.
  destruct (for_loop_total add (S (remaining make)) make (VInt 0)) as [[r it1] E];
    [lia|]. rewrite E in H. destruct r as [total|]; [|done].
  cbn [iter_ advanced] in H.
  apply for_loop_Return in E as (l & Hl & _).
  destruct (for_loop_list (append_percent total) (S (remaining make)) make [] l it1 Hl)
    as [it2 E2]; [lia|].
  rewrite E2 in H. injection H as Hr <-. exists l. rewrite Hl. split_and!; try done.
  by apply fold_append_percent_length in Hr.
Qed.

(** X9: when [normalize] returns a list for a container, the list has one
    percentage per item of the container, and the container is left as it
    was. *)
Theorem normalize_container_length make results numbers' :
  normalize add (Container make) = (Return results, numbers') →
  ∃ items, fst (list_ make) = Return items ∧
           length results = length items ∧ numbers' = Container make.
Proof. apply normalize_Container_length. Qed.

(** X10: [normalize_defensive] rejects every iterator with [TypeError],
    without consuming anything from it; when it returns a list, its
    argument is a container and the list has one percentage per item. *)
Theorem normalize_defensive_spec numbers :
  (∀ it, numbers = Iterator it →
         normalize_defensive add numbers = (Raise TypeError, Iterator it)) ∧
  (∀ results numbers',
     normalize_defensive add numbers = (Return results, numbers') →
     ∃ make items, numbers = Container make ∧ fst (list_ make) = Return items ∧
                   length results = length items).
Proof.
  split.
  - by intros it ->.
  - intros results numbers' H. destruct numbers as [make|it]; [|done].
    apply normalize_Container_length in H as (items & ? & ? & _). by exists make, items.
Qed.

(** X11: [normalize_copy] on an iterator: when it returns a list, the list
    has one percentage per item the iterator still had, and the iterator is
    left exhausted. *)
Theorem normalize_copy_iterator it results numbers' :
  normalize_copy add (Iterator it) = (Return results, numbers') →
  ∃ items it', list_ it = (Return items, it') ∧ numbers' = Iterator it' ∧
               length results = length items ∧
               produceNext it' = (StopIteration, it').
Proof.
  unfold normalize_copy. simpl. destruct (list_ it) as [[copy|e] it'] eqn:E; [|done].
  intros [= Hr <-]. exists copy, it'. split_and!; try done; [|by eapply list_exhausts].
  destruct (normalize add (Container (ListIter copy 0))) as [r n'] eqn:En.
  simpl in Hr. subst r.
  apply normalize_Container_length in En as (items & Hi & ? & _).
  rewrite list_ListIter, drop_0 in Hi. simpl in Hi. by injection Hi as <-.
Qed.


(** The sum of a list of ints, given that [add] adds ints. *)
Lemma fold_add_ints (visits : list Z) (acc : Z) :
  (∀ x y, add (VInt x) (VInt y) = Return (VInt (x + y)%Z)) →
  fold_outcome add (VInt <$> visits) (VInt acc) = Return (VInt (acc + foldr Z.add 0%Z visits)%Z).
Proof.
  intros Hadd. revert acc. induction visits as [|z visits IH]; intros acc; simpl.
  - by rewrite Z.add_0_r.
  - rewrite Hadd, IH. by rewrite Z.add_assoc.
Qed.

(** X13: [normalize] of an empty list is the empty list; of a non-empty
    list of ints whose sum is zero it raises [ZeroDivisionError]. *)
Theorem normalize_zero_total :
  (∀ x y, add (VInt x) (VInt y) = Return (VInt (x + y)%Z)) →
  fst (normalize add (Container (ListIter [] 0))) = Return [] ∧
  ∀ z visits,
    foldr Z.add 0%Z (z :: visits) = 0%Z →
    fst (normalize add (Container (ListIter (VInt <$> z :: visits) 0))) =
    Raise ZeroDivisionError.
Proof.
  intros Hadd. split.
  - by erewrite normalize_Container by (by rewrite list_ListIter, drop_0).
  - intros z visits Hsum.
    erewrite normalize_Container by (by rewrite list_ListIter, drop_0).
    rewrite (fold_add_ints (z :: visits) 0 Hadd), Hsum. done.
Qed.

(** One percentage per int, against a fixed total. *)
Lemma fold_percent_ints (total : Z) (visits : list Z) (qs : list spec_float) results :
  Forall2 (λ v q, truediv (PyInt (100 * v)) (PyInt total) = Return q) visits qs →
  fold_outcome (append_percent (VInt total)) (VInt <$> visits) results =
  Return (results ++ (VFloat <$> qs)).
Proof.
  intros H. revert results. induction H as [|v q visits qs Hq _ IH]; intros results.
  - simpl. by rewrite app_nil_r.
  - rewrite !fmap_cons. cbn [fold_outcome]. unfold append_percent at 1, percent.
    cbn [as_number times_100]. rewrite Hq, IH, <- app_assoc. done.
Qed.

(** X26: [normalize] on a list of ints returns, for each item in order,
    the float quotient of [100 * value] by the sum of the whole list,
    whenever these divisions succeed. *)
Theorem normalize_percentages (visits : list Z) (qs : list spec_float) :
  (∀ x y, add (VInt x) (VInt y) = Return (VInt (x + y)%Z)) →
  Forall2 (λ v q, truediv (PyInt (100 * v)) (PyInt (foldr Z.add 0%Z visits)) = Return q)
          visits qs →
  fst (normalize add (Container (ListIter (VInt <$> visits) 0))) = Return (VFloat <$> qs).
Proof.
  intros Hadd H.
  erewrite normalize_Container by (by rewrite list_ListIter, drop_0).
  rewrite (fold_add_ints visits 0 Hadd). simpl.
  by rewrite (fold_percent_ints _ _ qs).
Qed.

End sum.

(** X26 at the visits of the snippet, [[15, 35, 80]]. *)
Lemma normalize_percentages_witness :
  let visits := [15; 35; 80]%Z in
  let qs := [S754_finite false 6495576385630523 (-49);
             S754_finite false 7578172449902277 (-48);
             S754_finite false 8660768514174031 (-47)] in
  (∀ x y, add_int (VInt x) (VInt y) = Return (VInt (x + y)%Z)) ∧
  Forall2 (λ v q, truediv (PyInt (100 * v)) (PyInt (foldr Z.add 0%Z visits)) = Return q)
          visits qs ∧
  fst (normalize add_int (Container (ListIter (VInt <$> visits) 0))) = Return (VFloat <$> qs).
Proof.
  intros visits qs.
  assert (∀ x y, add_int (VInt x) (VInt y) = Return (VInt (x + y)%Z)) as Hadd by done.
  assert (Forall2 (λ v q, truediv (PyInt (100 * v)) (PyInt (foldr Z.add 0%Z visits)) = Return q)
                  visits qs) as H by (repeat constructor).
  split; [exact Hadd|]. split; [exact H|].
  exact (normalize_percentages add_int visits qs Hadd H).
Defined.

(** X13 at the list [[5, -5]]. *)
Lemma normalize_zero_total_witness :
  (∀ x y, add_int (VInt x) (VInt y) = Return (VInt (x + y)%Z)) ∧
  foldr Z.add 0%Z [5; -5]%Z = 0%Z ∧
  fst (normalize add_int (Container (ListIter (VInt <$> [5; -5]%Z) 0))) =
    Raise ZeroDivisionError.
Proof.
  assert (∀ x y, add_int (VInt x) (VInt y) = Return (VInt (x + y)%Z)) as H by done.
  split; [exact H|]. split; [reflexivity|].
  exact (proj2 (normalize_zero_total add_int H) 5%Z [-5]%Z eq_refl).
Defined.

(** X8 at the generator of [read_visits] on the three visits of the
    snippet. *)
Lemma normalize_iterator_empty_witness :
  let it := read_visits ["15"; "35"; "80"]%string in
  sum_ add_int (Iterator it) = (Return (VInt 130), Iterator (snd (list_ it))) ∧
  normalize add_int (Iterator it) = (Return [], Iterator (snd (list_ it))).
Proof.
  intros it.
  assert (sum_ add_int (Iterator it) = (Return (VInt 130), Iterator (snd (list_ it)))) as H
    by reflexivity.
  split; [exact H|]. exact (normalize_iterator_empty add_int it _ _ H).
Defined.

(** The percentages of the snippet's visits. *)
Lemma normalize_visits :
  normalize add_int (Container (ListIter (VInt <$> [15; 35; 80]%Z) 0)) =
  (Return (VFloat <$> [S754_finite false 6495576385630523 (-49);
                       S754_finite false 7578172449902277 (-48);
                       S754_finite false 8660768514174031 (-47)]),
   Container (ListIter (VInt <$> [15; 35; 80]%Z) 0)).
Proof. vm_compute. reflexivity. Qed.

(** X9 at the visits of the snippet. *)
Lemma normalize_container_length_witness :
  let make := ListIter (VInt <$> [15; 35; 80]%Z) 0 in
  ∃ results,
    normalize add_int (Container make) = (Return results, Container make) ∧
    ∃ items, fst (list_ make) = Return items ∧
             length results = length items ∧ Container make = Container make.
Proof.
  intros make. eexists. split; [exact normalize_visits|].
  exact (normalize_container_length add_int make _ _ normalize_visits).
Defined.

(** X10 at the visits of the snippet, as a list and as [iter(visits)]. *)
Lemma normalize_defensive_spec_witness :
  let make := ListIter (VInt <$> [15; 35; 80]%Z) 0 in
  normalize_defensive add_int (Iterator make) = (Raise TypeError, Iterator make) ∧
  ∃ results,
    normalize_defensive add_int (Container make) = (Return results, Container make) ∧
    ∃ make' items, Container make = Container make' ∧ fst (list_ make') = Return items ∧
                   length results = length items.
Proof.
  intros make. split.
  - exact (proj1 (normalize_defensive_spec add_int (Iterator make)) make eq_refl).
  - eexists. split; [exact normalize_visits|].
    exact (proj2 (normalize_defensive_spec add_int (Container make)) _ _ normalize_visits).
Defined.

(** X11 at the generator of [read_visits] on the visits of the snippet. *)
Lemma normalize_copy_iterator_witness :
  let it := read_visits ["15"; "35"; "80"]%string in
  ∃ results numbers',
    normalize_copy add_int (Iterator it) = (Return results, numbers') ∧
    length results = 3 ∧
    ∃ items it', list_ it = (Return items, it') ∧ numbers' = Iterator it' ∧
                 length results = length items ∧
                 produceNext it' = (StopIteration, it').
Proof.
  intros it.
  assert (normalize_copy add_int (Iterator it) =
          (fst (normalize_copy add_int (Iterator it)), Iterator (snd (list_ it)))) as H
    by reflexivity.
  assert (fst (normalize_copy add_int (Iterator it)) =
          Return (VFloat <$> [S754_finite false 6495576385630523 (-49);
                              S754_finite false 7578172449902277 (-48);
                              S754_finite false 8660768514174031 (-47)])) as H'
    by (vm_compute; reflexivity).
  rewrite H' in H. eexists _, _. split; [exact H|]. split; [reflexivity|].
  exact (normalize_copy_iterator add_int it _ _ H).
Defined.


End NormalizeFacts.

(** ** More on [index_words], and [index_file] *)

Module IndexFileFacts.
Import IndexWords.
Local Open Scope Z_scope.

Lemma get_lt (s : string) : ∀ n c, String.get n s = Some c → (n < String.length s)%nat.
Proof.
  induction s as [|a s IH]; intros n c H; destruct n; simpl in *; try done; [lia|].
  apply IH in H. lia.
Qed.

#[local] Arguments Ascii.eqb : simpl never.
#[local] Arguments String.get : simpl never.

(** The loop of [index_words] over the letters of [rest], counted from
    [index], started on an empty result. *)
Local Abbreviation loop_words k r :=
  (fold_left
     (λ result '(index, letter),
        if Ascii.eqb letter " " then result ++ [index + 1] else result)
     (enumerate_from k r) (@nil Z)).

Lemma loop_app rest : ∀ index result,
  fold_left
    (λ result '(index, letter),
       if Ascii.eqb letter " " then result ++ [index + 1] else result)
    (enumerate_from index rest) result = result ++ loop_words index rest.
Proof.
  induction rest as [|letter rest IH]; intros index result; simpl.
  - by rewrite app_nil_r.
  - rewrite (IH _ (if Ascii.eqb letter " " then [] ++ [index + 1] else [])), IH.
    destruct (Ascii.eqb letter " "); [by rewrite <- app_assoc|done].
Qed.

Lemma loop_shift rest : ∀ index,
  loop_words index rest = (λ i, index + i) <$> loop_words 0 rest.
Proof.
  induction rest as [|letter rest IH]; intros index; simpl; [done|].
  rewrite (loop_app rest (index + 1)), (loop_app rest (0 + 1)), fmap_app.
  rewrite (IH (index + 1)), (IH (0 + 1)), <- list_fmap_compose.
  f_equal.
  - by destruct (Ascii.eqb letter " ").
  - apply list_fmap_ext. intros _ i _. simpl. lia.
Qed.

Lemma index_words_unfold text :
  index_words text = (if truthy text then [0] else []) ++ loop_words 0 text.
Proof. unfold index_words, enumerate. rewrite loop_app. by destruct (truthy text). Qed.

(** What the loop appends: increasing indices, each one just after a
    space, one per space. *)
Lemma loop_words_spec rest : ∀ index,
  StronglySorted Z.lt (loop_words index rest) ∧
  (∀ i, i ∈ loop_words index rest ↔
        index < i ∧ String.get (Z.to_nat (i - index - 1)) rest = Some " "%char) ∧
  length (loop_words index rest) =
    length (List.filter (Ascii.eqb " ") (list_ascii_of_string rest)).
Proof.
  induction rest as [|letter rest IH]; intros index; simpl.
  - split_and!; [constructor| |done].
    intros i. split; [by intros ?%elem_of_nil|by intros [_ ?]].
  - destruct (IH (index + 1)) as (Hs & He & Hl).
    rewrite (loop_app rest (index + 1)).
    assert (∀ i, String.get (Z.to_nat (i - index - 1)) (String letter rest) = Some " "%char
                 ∧ index < i ↔
                 (i = index + 1 ∧ letter = " "%char) ∨
                 (index + 1 < i ∧ String.get (Z.to_nat (i - (index + 1) - 1)) rest = Some " "%char))
      as Hget.
    { intros i. destruct (decide (i = index + 1)) as [->|Hne].
      - replace (index + 1 - index - 1) with 0 by lia. simpl. split.
        + intros [[= ->] _]. by left.
        + intros [[_ ->]|[? _]]; [split; [done|lia]|lia].
      - split.
        + intros [Hg Hi]. right. split; [lia|].
          replace (Z.to_nat (i - index - 1)) with (S (Z.to_nat (i - (index + 1) - 1))) in Hg
            by lia. done.
        + intros [[? _]|[Hi Hg]]; [done|]. split; [|lia].
          replace (Z.to_nat (i - index - 1)) with (S (Z.to_nat (i - (index + 1) - 1)))
            by lia. done. }
    destruct (Ascii.eqb_spec letter " ") as [->|Hsp]; simpl.
    + rewrite ?(Ascii.eqb_refl " "). split_and!.
      * constructor; [done|]. apply Forall_forall. intros i Hi%He. lia.
      * intros i. rewrite elem_of_cons, He. specialize (Hget i). split.
        -- intros [->|[? ?]]; (split; [lia|]); apply Hget; [by left|by right].
        -- intros [Hi Hg]. destruct (proj1 Hget (conj Hg Hi)) as [[-> _]|?]; [by left|by right].
      * simpl. by rewrite Hl.
    + destruct (Ascii.eqb_spec " " letter) as [<-|_]; [done|]. split_and!; [done| |done].
      intros i. rewrite He. specialize (Hget i). split.
      * intros [? ?]. split; [lia|]. apply Hget. by right.
      * intros [Hi Hg]. destruct (proj1 Hget (conj Hg Hi)) as [[_ ->]|?]; done.
Qed.

(** X14: an index is in [index_words(text)] exactly when it is [0], for a
    non-empty text, or the position just after a space. *)
Theorem index_words_elem (text : string) (i : Z) :
  i ∈ index_words text ↔
  (i = 0 ∧ text ≠ ""%string) ∨
  (0 < i ∧ String.get (Z.to_nat (i - 1)) text = Some " "%char).
Proof.
  rewrite index_words_unfold, elem_of_app.
  destruct (loop_words_spec text 0) as (_ & He & _). rewrite He.
  replace (i - 0 - 1) with (i - 1) by lia.
  destruct text as [|c text]; simpl truthy.
  - split; [intros [?%elem_of_nil|?]; [done|by right]|].
    intros [[_ ?]|?]; [done|by right].
  - rewrite list_elem_of_singleton. split; [intros [->|?]; [by left|by right]|].
    intros [[-> _]|?]; [by left|by right].
Qed.

(** X15: the indices [index_words(text)] returns are strictly increasing
    and lie between [0] and the length of the text; there is one for the
    start of a non-empty text and one per space. *)
Theorem index_words_shape (text : string) :
  StronglySorted Z.lt (index_words text) ∧
  Forall (λ i, 0 ≤ i ≤ Z.of_nat (String.length text)) (index_words text) ∧
  length (index_words text) =
    ((if truthy text then 1 else 0) +
     length (List.filter (Ascii.eqb " ") (list_ascii_of_string text)))%nat.
Proof.
  rewrite index_words_unfold.
  destruct (loop_words_spec text 0) as (Hs & He & Hl).
  assert (Forall (λ i, 0 < i ≤ Z.of_nat (String.length text)) (loop_words 0 text)) as Hb.
  { apply Forall_forall. intros i [Hi Hg]%He. split; [done|].
    apply get_lt in Hg. lia. }
  rewrite length_app, Hl. split_and!.
  - destruct (truthy text); [|done]. simpl. constructor; [done|].
    eapply Forall_impl; [exact Hb|]. intros; simpl in *; lia.
  - apply Forall_app. split.
    + destruct (truthy text); repeat constructor; lia.
    + eapply Forall_impl; [exact Hb|]. intros; simpl in *; lia.
  - by destruct (truthy text).
Qed.

Lemma loop_cons letter rest :
  loop_words 0 (String letter rest) =
  (if Ascii.eqb letter " " then [1] else []) ++ ((λ i, 1 + i) <$> loop_words 0 rest).
Proof.
  cbn [enumerate_from fold_left]. rewrite (loop_app rest (0 + 1)), (loop_shift rest (0 + 1)).
  by destruct (Ascii.eqb letter " ").
Qed.

Lemma shift_shift (a b : Z) (l : list Z) :
  (λ i, a + i) <$> ((λ i, b + i) <$> l) = (λ i, a + b + i) <$> l.
Proof. rewrite <- list_fmap_compose. apply list_fmap_ext. intros _ i _. simpl. lia. Qed.

(** The inner loop of [index_file], given what the outer loop does once
    the line is finished. *)
Lemma drain_letters handle :
  (∀ offset n, (IndexFile.unread_lines handle < n)%nat →
     drain IndexFile.next n (IndexFile.Suspended offset "" handle) =
     Some (Return (IndexFile.shifted_words offset handle), IndexFile.Finished)) →
  ∀ rest offset n,
    (String.length rest + IndexFile.unread_lines handle < n)%nat →
    drain IndexFile.next n (IndexFile.Suspended offset rest handle) =
    Some (Return (((λ i, offset + i) <$> loop_words 0 rest) ++
                  IndexFile.shifted_words (offset + Z.of_nat (String.length rest)) handle),
          IndexFile.Finished).
Proof.
  intros Hbase. induction rest as [|letter rest IH]; intros offset n Hn.
  - rewrite Hbase by (simpl in Hn; lia). simpl. by rewrite Z.add_0_r.
  - cbn [String.length] in Hn. destruct n as [|n]; [lia|].
    replace (offset + Z.of_nat (String.length (String letter rest)))
      with (offset + 1 + Z.of_nat (String.length rest)) by (cbn [String.length]; lia).
    rewrite loop_cons, fmap_app, shift_shift, IterFacts.drain_S.
    cbn [IndexFile.next IndexFile.next_letter].
    destruct (Ascii.eqb letter " ").
    + rewrite (IH (offset + 1) n) by lia. done.
    + pose proof (IH (offset + 1) (S n) ltac:(lia)) as H.
      rewrite IterFacts.drain_S in H. cbn [IndexFile.next] in H. by rewrite H.
Qed.

(** From a suspended frame on, [index_file] yields what the loop of
    [index_words] gives for the rest of the line, then the words of the
    following lines, all shifted by the running offset. *)
Lemma drain_index_file handle : ∀ rest offset n,
  (String.length rest + IndexFile.unread_lines handle < n)%nat →
  drain IndexFile.next n (IndexFile.Suspended offset rest handle) =
  Some (Return (((λ i, offset + i) <$> loop_words 0 rest) ++
                IndexFile.shifted_words (offset + Z.of_nat (String.length rest)) handle),
        IndexFile.Finished).
Proof.
  induction handle as [|line handle IHh]; apply drain_letters; intros offset n Hn.
  - destruct n; [lia|done].
  - destruct n as [|n]; [lia|]. rewrite IterFacts.drain_S.
    cbn [IndexFile.next IndexFile.next_letter IndexFile.next_line IndexFile.shifted_words].
    assert (IndexFile.unread_lines (line :: handle) =
            S (String.length line + IndexFile.unread_lines handle)) as E by done.
    rewrite E in Hn. rewrite index_words_unfold.
    destruct (truthy line) eqn:T.
    + rewrite (IHh line offset n) by lia. simpl. by rewrite Z.add_0_r.
    + destruct line; [|done].
      pose proof (IHh ""%string offset (S n) ltac:(simpl in Hn |- *; lia)) as H.
      rewrite IterFacts.drain_S in H. cbn [IndexFile.next IndexFile.next_letter] in H.
      rewrite H. done.
Qed.

(** The bound in [IndexFile.list_] is enough. *)
Lemma index_file_list_total it :
  is_Some (drain IndexFile.next (S (IndexFile.unread it)) it).
Proof.
  destruct it as [handle|offset rest handle|]; [| |by eexists].
  - pose proof (drain_index_file handle ""%string 0 (S (IndexFile.unread_lines handle))
                  ltac:(simpl; lia)) as H.
    rewrite IterFacts.drain_S in *. cbn [IndexFile.next IndexFile.next_letter] in H.
    cbn [IndexFile.next IndexFile.unread]. rewrite H. by eexists.
  - rewrite drain_index_file by (simpl; lia). by eexists.
Qed.

(** X16: [index_file] over the lines of a file yields, for each line in
    turn, the indices [index_words] gives for that line, shifted by the
    number of characters before the line; for a one-line file these are
    exactly the indices of [index_words]. *)
Theorem index_file_spec (handle : list string) :
  IndexFile.list_ (IndexFile.index_file handle) =
    (Return (IndexFile.shifted_words 0 handle), IndexFile.Finished) ∧
  ∀ text, fst (IndexFile.list_ (IndexFile.index_file [text])) = Return (index_words text).
Proof.
  assert (∀ handle, IndexFile.list_ (IndexFile.index_file handle) =
                    (Return (IndexFile.shifted_words 0 handle), IndexFile.Finished)) as H.
  { clear. intros handle. unfold IndexFile.list_, IndexFile.index_file.
    pose proof (drain_index_file handle ""%string 0 (S (IndexFile.unread_lines handle))
                  ltac:(simpl; lia)) as H.
    rewrite IterFacts.drain_S in *. cbn [IndexFile.next IndexFile.next_letter] in H.
    cbn [IndexFile.next IndexFile.unread]. by rewrite H. }
  split; [done|]. intros text. rewrite H. simpl. rewrite app_nil_r. f_equal.
  rewrite <- (list_fmap_id (index_words text)) at 2.
  apply list_fmap_ext. intros _ i _. simpl. done.
Qed.

End IndexFileFacts.

(** ** [move], [pause] and [animate] *)

Module AnimateFacts.
Import Iter IterFacts IterLists Animate.

(** A generator that yields the same value for every item of its source. *)
Lemma list_constant (v : value) (seq : list value) :
  fst (Iter.list_ (Generator false (λ _, Return v) (λ _, true) (ListIter seq 0))) =
  Return (replicate (length seq) v).
Proof.
  erewrite (list_Generator_all _ (λ _, v)); [| by rewrite list_ListIter, drop_0 | done].
  simpl. f_equal. induction seq as [|x seq IH]; [done|]. rewrite fmap_cons. simpl. by f_equal.
Qed.

Lemma length_range (n : Z) : length (YieldFrom.range n) = Z.to_nat n.
Proof. unfold YieldFrom.range. by rewrite length_fmap, length_seq. Qed.

Lemma list_move (period : Z) (speed : value) :
  fst (Iter.list_ (move period speed)) = Return (replicate (Z.to_nat period) speed).
Proof. unfold move. by rewrite list_constant, length_fmap, length_range. Qed.

Lemma list_pause (delay : Z) :
  fst (Iter.list_ (pause delay)) = Return (replicate (Z.to_nat delay) (VInt 0)).
Proof. unfold pause. by rewrite list_constant, length_fmap, length_range. Qed.

(** X17: [move(period, speed)] yields [speed] exactly [period] times and
    [pause(delay)] yields [0] exactly [delay] times; nothing at all for a
    period or delay that is zero or negative. *)
Theorem move_pause_yield (period delay : Z) (speed : value) :
  fst (Iter.list_ (move period speed)) = Return (replicate (Z.to_nat period) speed) ∧
  fst (Iter.list_ (pause delay)) = Return (replicate (Z.to_nat delay) (VInt 0)).
Proof. split; [apply list_move|apply list_pause]. Qed.

(** Running sub-generators in sequence, with enough steps. *)
Lemma drain_chain segments : ∀ outputs n,
  Forall2 (λ g l, fst (Iter.list_ g) = Return l) segments outputs →
  unread segments < n →
  drain next n segments = Some (Return (concat outputs), []).
Proof.
  induction segments as [|g segments IHs]; intros outputs n H Hn.
  - apply Forall2_nil_inv_l in H as ->. destruct n; [lia|done].
  - apply Forall2_cons_inv_l in H as (l & outputs' & Hl & H & ->).
    assert (unread (g :: segments) = remaining g + unread segments) as E by done.
    rewrite E in Hn. clear E.
    remember (remaining g) as k eqn:Hk. revert g l Hl Hk n Hn.
    induction (lt_wf k) as [k _ IHk]; intros g l Hl -> n Hn.
    destruct n as [|n]; [lia|]. rewrite drain_S. cbn [next].
    rewrite list_unfold in Hl.
    destruct (produceNext g) as [[x| |e] g'] eqn:Eg; try done.
    + pose proof Eg as (_&_&_&_&Hy)%produceNext_invariants. specialize (Hy x eq_refl).
      destruct (Iter.list_ g') as [[l'|e'] g''] eqn:El; [|done]. simpl in Hl.
      injection Hl as <-.
      rewrite (IHk _ Hy g' l') by (rewrite ?El; done || lia). done.
    + simpl in Hl. injection Hl as <-.
      pose proof (IHs outputs' (S n) H ltac:(lia)) as Hr.
      rewrite drain_S in Hr. simpl. by rewrite Hr.
Qed.

(** The bound in [Animate.list_] is enough, whatever the sub-generators do. *)
Lemma chain_list_total segments : ∀ n,
  unread segments < n → is_Some (drain next n segments).
Proof.
  induction segments as [|g segments IHs]; intros n Hn.
  - destruct n; [lia|by eexists].
  - assert (unread (g :: segments) = remaining g + unread segments) as E by done.
    rewrite E in Hn. clear E.
    remember (remaining g) as k eqn:Hk. revert g Hk n Hn.
    induction (lt_wf k) as [k _ IHk]; intros g -> n Hn.
    destruct n as [|n]; [lia|]. rewrite drain_S. cbn [next].
    destruct (produceNext g) as [[x| |e] g'] eqn:Eg.
    + pose proof Eg as (_&_&_&_&Hy)%produceNext_invariants. specialize (Hy x eq_refl).
      destruct (IHk _ Hy g' eq_refl n ltac:(lia)) as [[[l|e] s'] ->]; by eexists.
    + pose proof (IHs (S n) ltac:(lia)) as Hr. by rewrite drain_S in Hr.
    + by eexists.
Qed.

(** X18: a generator that runs sub-generators one after the other
    ([animate], [animate_composed]) yields what the first yields, then what
    the second yields, and so on: the concatenation of their outputs. *)
Theorem chain_yields_concat segments outputs :
  Forall2 (λ g l, fst (Iter.list_ g) = Return l) segments outputs →
  Animate.list_ segments = (Return (concat outputs), []).
Proof.
  intros H. unfold Animate.list_. by rewrite (drain_chain segments outputs) by (done || lia).
Qed.

(** X18 at [animate()] and [animate_composed()]: four deltas of [5.0],
    three of [0], two of [3.0]. *)
Lemma chain_yields_concat_witness :
  let outputs := [replicate 4 (VFloat five); replicate 3 (VInt 0);
                  replicate 2 (VFloat three)] in
  Forall2 (λ g l, fst (Iter.list_ g) = Return l) animate outputs ∧
  Animate.list_ animate = (Return (concat outputs), []) ∧
  Animate.list_ animate_composed = (Return (concat outputs), []).
Proof.
  intros outputs.
  assert (Forall2 (λ g l, fst (Iter.list_ g) = Return l) animate outputs) as H.
  { repeat constructor; first [apply list_move | apply list_pause]. }
  split; [exact H|]. split; exact (chain_yields_concat animate outputs H).
Defined.

End AnimateFacts.

(** ** The earlier versions of [careful_divide] *)

Module CarefulDivideFacts.
Import Number ReturnNone.
Local Open Scope Z_scope.

(** X19: the first [careful_divide] returns [None] for every zero int
    divisor, and for a zero numerator over a non-zero int divisor it
    returns a float zero: both results are false in a condition, so
    [if not result] cannot tell the valid zero from the error. *)
Theorem careful_divide_1_falsy_zero (x y : Z) :
  y ≠ 0 →
  careful_divide_1 (PyInt x) (PyInt 0) = Return VNone ∧
  careful_divide_1 (PyInt 0) (PyInt y) = Return (VFloat (S754_zero (y <? 0))) ∧
  PosKw.truthy VNone = false ∧
  PosKw.truthy (VFloat (S754_zero (y <? 0))) = false.
Proof.
  intros Hy. split_and!; try done.
  unfold careful_divide_1, truediv. destruct (Z.eqb_spec y 0) as [|_]; [done|].
  by destruct y.
Qed.

(** X19 at the call of the snippet, [x, y = 0, 5]. *)
Lemma careful_divide_1_falsy_zero_witness :
  5 ≠ 0 ∧ careful_divide_1 (PyInt 0) (PyInt 5) = Return (VFloat (S754_zero false)).
Proof.
  assert (5 ≠ 0) as H by lia.
  split; [exact H|]. exact (proj1 (proj2 (careful_divide_1_falsy_zero 1 5 H))).
Defined.

(** X20: the second [careful_divide] returns a pair whose first part tells
    what the second is: [True] with the quotient of the division, or
    [False] with [None], the latter only for a zero divisor. *)
Theorem careful_divide_2_flag a b r :
  careful_divide_2 a b = Return r →
  (∃ q, truediv a b = Return q ∧ r = VPair (VBool true) (VFloat q)) ∨
  (is_zero b = true ∧ r = VPair (VBool false) VNone).
Proof.
  unfold careful_divide_2. destruct (truediv a b) as [q|e] eqn:E.
  - intros [= <-]. left. by exists q.
  - destruct e; try done. intros [= <-]. right. split; [|done].
    by apply ReturnNoneFacts.truediv_ZeroDivisionError in E.
Qed.

(** X20 at [careful_divide(1, 0)]. *)
Lemma careful_divide_2_flag_witness :
  careful_divide_2 (PyInt 1) (PyInt 0) = Return (VPair (VBool false) VNone) ∧
  ((∃ q, truediv (PyInt 1) (PyInt 0) = Return q ∧
         VPair (VBool false) VNone = VPair (VBool true) (VFloat q)) ∨
   (is_zero (PyInt 0) = true ∧ VPair (VBool false) VNone = VPair (VBool false) VNone)).
Proof.
  split; [reflexivity|].
  exact (careful_divide_2_flag (PyInt 1) (PyInt 0) _ eq_refl).
Defined.

End CarefulDivideFacts.

(** ** The two [decode] functions *)

Module DecodeFacts.
Import Binder BinderFacts NoneDocstring NoneDocstringFacts.

Section decode.
Variable json_loads : value → store → outcome value * store.

(** X21: every call of the first [decode] whose data cannot be decoded
    returns the dictionary that executing [def decode] created, whatever
    the store has become meanwhile: two such calls return the same object,
    and the store is not changed by the fallback. *)
Theorem decode_fallback_is_shared st data1 data2 st1 st1' st2 st2' :
  json_loads (VStr data1) st1 = (Raise ValueError, st1') →
  json_loads (VStr data2) st2 = (Raise ValueError, st2') →
  let params := fst (def_decode st) in
  let default := VRef (fresh (dom st)) in
  deref default (snd (def_decode st)) = Some ∅ ∧
  decode json_loads params [VStr data1] [] st1 = inr (Return default, st1') ∧
  decode json_loads params [VStr data2] [] st2 = inr (Return default, st2') ∧
  is_ default default = true.
Proof.
  intros H1 H2 params default. split_and!.
  - unfold def_decode, alloc. simpl. by rewrite lookup_insert_eq.
  - by apply decode_returns_the_default.
  - by apply decode_returns_the_default.
  - simpl. by apply bool_decide_eq_true.
Qed.

(** X22: a call of the fixed [decode] whose data cannot be decoded returns
    a new, empty dictionary: it is none of the objects alive when it is
    created, and these keep their contents. *)
Theorem decode_fixed_is_new st data st' foo :
  json_loads (VStr data) st = (Raise ValueError, st') →
  is_Some (deref foo st') →
  ∃ bar st'',
    decode_fixed json_loads [VStr data] [] st = inr (Return bar, st'') ∧
    is_ foo bar = false ∧
    deref bar st'' = Some ∅ ∧
    deref foo st'' = deref foo st'.
Proof.
  intros H [d Hd].
  destruct (decode_fixed_is_fresh json_loads data st st' H) as [E Hfresh].
  eexists _, _. split; [exact E|].
  destruct foo as [| | | | | |l]; try done. simpl in *.
  assert (l ≠ fresh (dom st')) as Hne by congruence.
  split_and!.
  - by apply bool_decide_eq_false.
  - by rewrite lookup_insert_eq.
  - by rewrite lookup_insert_ne.
Qed.

End decode.

(** X21 at the two calls of the snippet. *)
Lemma decode_fallback_is_shared_witness :
  let st := (∅ : store) in
  let st1 : store := {[ 0 := ∅ ]} in
  let st2 : store := {[ 0 := {[ "stuff"%string := VInt 5 ]} ]} in
  loads_int (VStr "bad data") st1 = (Raise ValueError, st1) ∧
  loads_int (VStr "also bad") st2 = (Raise ValueError, st2) ∧
  decode loads_int (fst (def_decode st)) [VStr "bad data"] [] st1 =
    inr (Return (VRef 0), st1) ∧
  decode loads_int (fst (def_decode st)) [VStr "also bad"] [] st2 =
    inr (Return (VRef 0), st2).
Proof.
  intros st st1 st2.
  assert (loads_int (VStr "bad data") st1 = (Raise ValueError, st1)) as H1 by reflexivity.
  assert (loads_int (VStr "also bad") st2 = (Raise ValueError, st2)) as H2 by reflexivity.
  split; [exact H1|]. split; [exact H2|].
  pose proof (decode_fallback_is_shared loads_int st _ _ _ _ _ _ H1 H2) as (_ & E1 & E2 & _).
  split; [exact E1|exact E2].
Defined.

(** X22 at the second call of the fixed snippet, with [foo] alive. *)
Lemma decode_fixed_is_new_witness :
  let st : store := {[ 0 := {[ "stuff"%string := VInt 5 ]} ]} in
  loads_int (VStr "also bad data") st = (Raise ValueError, st) ∧
  is_Some (deref (VRef 0) st) ∧
  ∃ bar st'',
    decode_fixed loads_int [VStr "also bad data"] [] st = inr (Return bar, st'') ∧
    is_ (VRef 0) bar = false ∧
    deref bar st'' = Some ∅ ∧
    deref (VRef 0) st'' = deref (VRef 0) st.
Proof.
  intros st.
  assert (loads_int (VStr "also bad data") st = (Raise ValueError, st)) as H by reflexivity.
  assert (is_Some (deref (VRef 0) st)) as Ha by (by eexists).
  split; [exact H|]. split; [exact Ha|].
  exact (decode_fixed_is_new loads_int st _ st (VRef 0) H Ha).
Defined.

End DecodeFacts.

(** ** The bodies and signatures of the [safe_divisor] family *)

Module SafeDivisorFacts.
Import Binder BinderFacts Number PosKw.



(** Named arguments are accepted only for declared parameters that are
    not positional-only. *)
Lemma assign_named_accepts paramSpec namedArgs bound bound' key :
  assign_named paramSpec namedArgs bound = inr bound' →
  key ∈ fst <$> namedArgs →
  ∃ p, find_param paramSpec key = Some p ∧ zone p ≠ PositionalOnly.
Proof.
  revert bound. induction namedArgs as [|[k arg] rest IH]; intros bound H Hin.
  - by apply elem_of_nil in Hin.
  - simpl in *. destruct (find_param paramSpec k) as [p|] eqn:Hp; [|done].
    destruct (bool_decide (zone p = PositionalOnly)) eqn:Hz; [done|].
    destruct (bool_decide (is_Some (bound !! k))); [done|]. simpl in H.
    apply elem_of_cons in Hin as [->|Hin]; [|by eapply IH].
    exists p. split; [done|]. by apply bool_decide_eq_false in Hz.
Qed.

(** X24: [safe_divisor_e] rejects every call that names [numerator] or
    [denominator], whatever else the call passes: the two can only be
    given by position. *)
Theorem safe_divisor_e_positional_only positionalArgs namedArgs key :
  key = "numerator"%string ∨ key = "denominator"%string →
  key ∈ fst <$> namedArgs →
  ∃ e, safe_divisor_e positionalArgs namedArgs = inl e.
Proof.
  intros Hkey Hin. unfold safe_divisor_e, call, bind.
  destruct (assign_positional _ _ _) as [e|bound]; [by eexists|].
  destruct (assign_named _ _ _) as [e|bound'] eqn:E; [by eexists|].
  destruct (assign_named_accepts _ _ _ _ _ E Hin) as (p & Hp & Hz).
  destruct Hkey as [-> | ->]; vm_compute in Hp; injection Hp as <-; done.
Qed.

(** X24 at [safe_divisor_e(numerator=2, denominator=5)]. *)
Lemma safe_divisor_e_positional_only_witness :
  let namedArgs := [("numerator"%string, VInt 2); ("denominator"%string, VInt 5)] in
  ("numerator"%string = "numerator"%string ∨ "numerator"%string = "denominator"%string) ∧
  "numerator"%string ∈ fst <$> namedArgs ∧
  ∃ e, safe_divisor_e [] namedArgs = inl e.
Proof.
  intros namedArgs.
  assert ("numerator"%string ∈ fst <$> namedArgs) as Hin by apply list_elem_of_here.
  split; [by left|]. split; [exact Hin|].
  exact (safe_divisor_e_positional_only [] namedArgs _ (or_introl eq_refl) Hin).
Defined.



End SafeDivisorFacts.
